(** * The work-stealing deque pool of [src/pool/deque.c]

    A shallow embedding of the deque (push, local pop, steal, remove) as
    sequential code over an explicit [data_t] state, and the properties the
    specification states about it.

    - [size_t] is a 64-bit unsigned integer: a [Z] with its wrap-around
      written out by [size_t].
    - The backing array is the list of its slots; what C leaves undefined,
      an access outside the allocated block or the overflow of an [int], is
      reported as [Faults].
    - Effects are threaded by a small state monad whose outcomes tell a
      normal return from a thread that spins on the foreign lock for ever,
      from a memory fault and from a loop cut off by its fuel. *)

From Stdlib Require Import ZArith Lia Bool List.
From stdpp Require Import base list.
Import ListNotations.
Local Open Scope Z_scope.

(** ** Values *)

(** A work-item reference ([ABTI_unit *]), as an address. *)
Definition ABT_unit : Type := Z.

(** Modelled from the spec: the header that defines [ABT_UNIT_NULL] is not
    under src/; the spec calls it the NULL sentinel that a slot holds when it
    holds no work-item reference. *)
Definition ABT_UNIT_NULL : ABT_unit := 0.

(** Modelled from the spec: [abt.h] is not under src/; remove reports
    success or not-found. *)
Inductive abt_errno : Type := ABT_SUCCESS | ABT_ERR_POOL.

Definition SIZE_MAX : Z := 2 ^ 64 - 1.

(** An [int] has 32 bits on the 64-bit targets. *)
Definition INT_MAX : Z := 2 ^ 31 - 1.

(** Arithmetic on [size_t] wraps modulo 2^64. *)
Definition size_t (x : Z) : Z := x mod 2 ^ 64.

(** [sizeof(ABTI_unit * )] on the 64-bit targets the spec assumes. *)
Definition sizeof_ptr : Z := 8.

(** Modelled from the spec: [ABTI_mutex] and its operations live in a header
    that is not under src/. The spec describes the foreign lock as a
    mutual-exclusion spinlock: it is either free or held, and a thread that
    asks for a held lock spins until the holder releases it. *)
Inductive ABTI_mutex : Type := Unlocked | Locked.

Record data_t : Type := Data {
  unit_array : list ABT_unit;
  array_length : Z;
  mask : Z;
  head_idx : Z;
  tail_idx : Z;
  foreign_lock : ABTI_mutex
}.

Definition INITIAL_LENGTH : Z := 256.

(** ** The monad of deque operations *)

Inductive outcome (A : Type) : Type :=
| Returns (a : A) (m : data_t)   (* the call returned [a], leaving state [m] *)
| Spins (m : data_t)             (* the caller waits for a lock that it holds itself *)
| Faults (m : data_t)            (* undefined in C: a slot outside the allocated block
                                    was accessed, or an [int] overflowed *)
| OutOfFuel.                     (* the loop was still running when the fuel ran out *)

Arguments Returns {A} a m.
Arguments Spins {A} m.
Arguments Faults {A} m.
Arguments OutOfFuel {A}.

Definition M (A : Type) : Type := data_t -> outcome A.

Definition ret {A} (a : A) : M A := fun m => Returns a m.

Definition bind {A B} (c : M A) (k : A -> M B) : M B :=
  fun m =>
    match c m with
    | Returns a m' => k a m'
    | Spins m' => Spins m'
    | Faults m' => Faults m'
    | OutOfFuel => OutOfFuel
    end.

Declare Scope deque_scope.
Delimit Scope deque_scope with deque.
Notation "x <- c ;; k" := (bind c (fun x => k))
  (at level 100, c at next level, right associativity) : deque_scope.
Notation "c ;; k" := (bind c (fun _ => k))
  (at level 100, right associativity) : deque_scope.
Local Open Scope deque_scope.

Definition get {A} (field : data_t -> A) : M A := fun m => Returns (field m) m.

Definition out_of_fuel {A} : M A := fun _ => OutOfFuel.

Definition set_unit_array (a : list ABT_unit) : M unit := fun m =>
  Returns tt (Data a (array_length m) (mask m) (head_idx m) (tail_idx m) (foreign_lock m)).
Definition set_mask (v : Z) : M unit := fun m =>
  Returns tt (Data (unit_array m) (array_length m) v (head_idx m) (tail_idx m) (foreign_lock m)).
Definition set_head_idx (v : Z) : M unit := fun m =>
  Returns tt (Data (unit_array m) (array_length m) (mask m) v (tail_idx m) (foreign_lock m)).
Definition set_tail_idx (v : Z) : M unit := fun m =>
  Returns tt (Data (unit_array m) (array_length m) (mask m) (head_idx m) v (foreign_lock m)).
Definition set_foreign_lock (l : ABTI_mutex) : M unit := fun m =>
  Returns tt (Data (unit_array m) (array_length m) (mask m) (head_idx m) (tail_idx m) l).

(** [m->unit_array[idx]] as an rvalue. *)
Definition load (idx : Z) : M ABT_unit := fun m =>
  match unit_array m !! Z.to_nat idx with
  | Some u => Returns u m
  | None => Faults m
  end.

(** [m->unit_array[idx] = u]. *)
Definition store (idx : Z) (u : ABT_unit) : M unit := fun m =>
  if bool_decide (Z.to_nat idx < length (unit_array m))%nat
  then set_unit_array (<[Z.to_nat idx := u]> (unit_array m)) m
  else Faults m.

(** With nobody else running, a held lock is never released while the
    caller waits for it. *)
Definition ABTI_mutex_spinlock : M unit := fun m =>
  match foreign_lock m with
  | Unlocked => set_foreign_lock Locked m
  | Locked => Spins m
  end.

Definition ABTI_mutex_unlock : M unit := set_foreign_lock Unlocked.

(** [ABTU_malloc] is not under src/; it is the C allocator, which does not
    initialise the block. [uninit i] is what slot [i] of a fresh block
    happens to hold. *)
Definition ABTU_malloc (uninit : nat -> ABT_unit) (bytes : Z) : list ABT_unit :=
  map uninit (seq 0 (Z.to_nat (bytes / sizeof_ptr))).

(** ** Pool functions *)

Definition deque_init (uninit : nat -> ABT_unit) : data_t :=
  Data (ABTU_malloc uninit (size_t (INITIAL_LENGTH * sizeof_ptr)))
       INITIAL_LENGTH (INITIAL_LENGTH - 1) 0 0 Unlocked.

Definition deque_get_size : M Z :=
  t <- get tail_idx ;; h <- get head_idx ;; ret (size_t (t - h)).

(** Lines 66-73: the guard against overflow of the tail. Returns the local
    [tail]. *)
Definition wrap_guard : M Z :=
  tail <- get tail_idx ;;
  if tail =? SIZE_MAX then
    ABTI_mutex_spinlock ;;
    t <- get tail_idx ;;
    tail' <- (if t =? SIZE_MAX then
                h <- get head_idx ;; mk <- get mask ;;
                set_head_idx (Z.land h mk) ;;
                t <- get tail_idx ;; mk <- get mask ;;
                set_tail_idx (Z.land t mk) ;;
                ret (Z.land t mk)
              else ret tail) ;;
    ABTI_mutex_unlock ;;
    ret tail'
  else ret tail.

(** Lines 90-92: [for (int i = 0; i < array_length; i++) new_array[i] =
    unit_array[(i + head) & mask]], with [n] iterations left. The index is
    an [int], which the test and the sum convert to [size_t]; [i++] at
    [INT_MAX] overflows. [None] is a run that C leaves undefined. *)
Fixpoint copy_loop (n : nat) (i head : Z) (old : list ABT_unit) (mk : Z)
    (new_array : list ABT_unit) : option (list ABT_unit) :=
  match n with
  | O => Some new_array
  | S n' =>
      match old !! Z.to_nat (Z.land (size_t (i + head)) mk) with
      | Some u =>
          if bool_decide (Z.to_nat i < length new_array)%nat
          then
            if i <? INT_MAX
            then copy_loop n' (i + 1) head old mk (<[Z.to_nat i := u]> new_array)
            else None
          else None
      | None => None
      end
  end.

(** Lines 88-98: the queue is doubled. [array_length] is not written. *)
Definition grow (uninit : nat -> ABT_unit) (head count : Z) : M Z :=
  len <- get array_length ;;
  old <- get unit_array ;;
  mk <- get mask ;;
  match copy_loop (Z.to_nat len) 0 head old mk
          (ABTU_malloc uninit (size_t (size_t (Z.shiftl len 1) * sizeof_ptr))) with
  | None => fun m => Faults m
  | Some new_array =>
      set_unit_array new_array ;;
      set_head_idx 0 ;;
      set_tail_idx count ;;
      mk <- get mask ;;
      set_mask (size_t (Z.lor (Z.shiftl mk 1) 1)) ;;
      ret count
  end.

(** Lines 76-78. *)
Definition push_fast (tail : Z) (item : ABT_unit) : M unit :=
  mk <- get mask ;;
  store (Z.land tail mk) item ;;
  set_tail_idx (size_t (tail + 1)).

(** Lines 80-104. Line 102 is the expression statement
    [m->tail_idx + tail + 1;]: it reads the tail and writes nothing. *)
Definition push_slow (uninit : nat -> ABT_unit) (tail : Z) (item : ABT_unit) : M unit :=
  ABTI_mutex_spinlock ;;
  head <- get head_idx ;;
  t <- get tail_idx ;; h <- get head_idx ;;
  let count := size_t (t - h) in
  mk <- get mask ;;
  tail <- (if count >=? mk then grow uninit head count else ret tail) ;;
  mk <- get mask ;;
  store (Z.land tail mk) item ;;
  t <- get tail_idx ;;
  let _ := size_t (size_t (t + tail) + 1) in
  ABTI_mutex_unlock.

Definition deque_push (uninit : nat -> ABT_unit) (item : ABT_unit) : M unit :=
  tail <- wrap_guard ;;
  h <- get head_idx ;; mk <- get mask ;;
  if tail <? size_t (h + mk) then push_fast tail item
  else push_slow uninit tail item.

(** The [while (1)] loop of [deque_pop_local]; each [continue] spends one
    unit of fuel. *)
Fixpoint deque_pop_local (fuel : nat) : M ABT_unit :=
  match fuel with
  | O => out_of_fuel
  | S fuel' =>
      tail <- get tail_idx ;;
      h <- get head_idx ;;
      if h >=? tail then ret ABT_UNIT_NULL
      else
        let tail := size_t (tail - 1) in
        set_tail_idx tail ;;
        h <- get head_idx ;;
        if h <=? tail then
          mk <- get mask ;;
          let idx := Z.land tail mk in
          item <- load idx ;;
          if item =? ABT_UNIT_NULL then deque_pop_local fuel'
          else store idx ABT_UNIT_NULL ;; ret item
        else
          ABTI_mutex_spinlock ;;
          h <- get head_idx ;;
          if h <=? tail then
            mk <- get mask ;;
            let idx := Z.land tail mk in
            item <- load idx ;;
            if item =? ABT_UNIT_NULL then deque_pop_local fuel'
            else store idx ABT_UNIT_NULL ;; ABTI_mutex_unlock ;; ret item
          else
            set_tail_idx (size_t (tail + 1)) ;;
            ABTI_mutex_unlock ;;
            ret ABT_UNIT_NULL
  end.

(** The [while (1)] loop of [deque_pop_steal]. The [continue] at line 183
    is taken with the foreign lock held. *)
Fixpoint deque_pop_steal (fuel : nat) : M ABT_unit :=
  match fuel with
  | O => out_of_fuel
  | S fuel' =>
      h <- get head_idx ;; t <- get tail_idx ;;
      if h >=? t then ret ABT_UNIT_NULL
      else
        ABTI_mutex_spinlock ;;
        head <- get head_idx ;;
        set_head_idx (size_t (head + 1)) ;;
        t <- get tail_idx ;;
        if head <? t then
          mk <- get mask ;;
          let idx := Z.land head mk in
          item <- load idx ;;
          if item =? ABT_UNIT_NULL then deque_pop_steal fuel'
          else store idx ABT_UNIT_NULL ;; ABTI_mutex_unlock ;; ret item
        else
          set_head_idx head ;;
          ABTI_mutex_unlock ;;
          ret ABT_UNIT_NULL
  end.

(** Lines 214-234: the element was found at index [i]. *)
Definition remove_found (i : Z) : M abt_errno :=
  ABTI_mutex_spinlock ;;
  mk <- get mask ;;
  u <- load (Z.land i mk) ;;
  if u =? ABT_UNIT_NULL then
    ABTI_mutex_unlock ;; ret ABT_ERR_POOL
  else
    mk <- get mask ;;
    store (Z.land i mk) ABT_UNIT_NULL ;;
    t <- get tail_idx ;;
    (if i =? t then
       t <- get tail_idx ;; set_tail_idx (size_t (t - 1))
     else
       h <- get head_idx ;;
       if i =? h then h <- get head_idx ;; set_head_idx (size_t (h + 1))
       else ret tt) ;;
    ABTI_mutex_unlock ;;
    ret ABT_SUCCESS.

(** Lines 211-236: [for (size_t i = ...; i >= m->head_idx; i--)], entered
    with the current value of [i]. *)
Fixpoint remove_scan (fuel : nat) (i : Z) (item : ABT_unit) : M abt_errno :=
  match fuel with
  | O => out_of_fuel
  | S fuel' =>
      h <- get head_idx ;;
      if i >=? h then
        mk <- get mask ;;
        u <- load (Z.land i mk) ;;
        if u =? item then remove_found i
        else remove_scan fuel' (size_t (i - 1)) item
      else ret ABT_ERR_POOL
  end.

Definition deque_remove (fuel : nat) (item : ABT_unit) : M abt_errno :=
  t <- get tail_idx ;; mk <- get mask ;;
  u <- load (Z.land (size_t (t - 1)) mk) ;;
  if u =? item then
    r <- deque_pop_local fuel ;;
    ret (if r =? ABT_UNIT_NULL then ABT_ERR_POOL else ABT_SUCCESS)
  else
    t <- get tail_idx ;;
    remove_scan fuel (size_t (t - 2)) item.

(** ** The ticket lock of [src/include/abti_ticket_lock.h]

    [deque.c] does not call it, but it is the lock whose code the
    repository shows, and it follows the discipline that the model of
    [ABTI_mutex] above assumes. One thread runs: [acquire] returns [None]
    when its wait loop cannot end. *)
Module TicketLock.

Definition uint32 (x : Z) : Z := x mod 2 ^ 32.

Record ABTI_ticket_lock : Type := Lock {
  next_ticket : Z;
  now_serving : Z
}.

Definition ABTI_ticket_lock_create : ABTI_ticket_lock := Lock 0 0.

Definition ABTI_ticket_lock_acquire (l : ABTI_ticket_lock)
    : option ABTI_ticket_lock :=
  let my_ticket := next_ticket l in
  let l' := Lock (uint32 (next_ticket l + 1)) (now_serving l) in
  if now_serving l' =? my_ticket then Some l' else None.

Definition ABTI_ticket_lock_release (l : ABTI_ticket_lock) : ABTI_ticket_lock :=
  Lock (next_ticket l) (uint32 (now_serving l + 1)).

End TicketLock.

(** ** Runs of several operations *)

(** An allocator that happens to hand out zero-filled blocks: every slot of
    a fresh array then holds [ABT_UNIT_NULL]. *)
Definition zeroed : nat -> ABT_unit := fun _ => ABT_UNIT_NULL.

Fixpoint push_all (uninit : nat -> ABT_unit) (items : list ABT_unit) : M unit :=
  match items with
  | [] => ret tt
  | x :: rest => deque_push uninit x ;; push_all uninit rest
  end.

(** [n] calls of [op] in a row by one thread, with the values returned. *)
Fixpoint repeat_op {A} (n : nat) (op : M A) : M (list A) :=
  match n with
  | O => ret []
  | S n' => x <- op ;; rest <- repeat_op n' op ;; ret (x :: rest)
  end.

(** The distinct work items [1, 2, ..., n]. *)
Definition items (n : nat) : list ABT_unit := map Z.of_nat (seq 1 n).

(** The state an outcome leaves behind. *)
Definition final {A} (o : outcome A) : data_t :=
  match o with
  | Returns _ m | Spins m | Faults m => m
  | OutOfFuel => deque_init zeroed
  end.

Definition returned {A} (o : outcome A) : option A :=
  match o with
  | Returns a _ => Some a
  | _ => None
  end.

(** ** Invariants of a quiescent deque *)

(** Slot [j] is the image [i & mask] of an index [i] of the live range
    [H, T). *)
Definition live (m : data_t) (j : Z) : bool :=
  (j - head_idx m) mod (mask m + 1) <? tail_idx m - head_idx m.

Definition slots_outside_null (m : data_t) : bool :=
  forallb (fun j => live m (Z.of_nat j)
                    || (nth j (unit_array m) ABT_UNIT_NULL =? ABT_UNIT_NULL))
          (seq 0 (length (unit_array m))).

Record deque_inv (m : data_t) : Prop := {
  inv_head : 0 <= head_idx m <= SIZE_MAX;
  inv_tail : 0 <= tail_idx m <= SIZE_MAX;
  inv_pow2 : exists k, 0 <= k < 64 /\ array_length m = 2 ^ k;
  inv_mask : mask m = array_length m - 1;
  inv_alloc : Z.of_nat (length (unit_array m)) = array_length m;
  inv_count : 0 <= tail_idx m - head_idx m <= array_length m;
  inv_null : slots_outside_null m = true;
  inv_lock : foreign_lock m = Unlocked
}.

(** The states that completed operations lead to from a fresh deque. *)
Inductive reachable (uninit : nat -> ABT_unit) : data_t -> Prop :=
| reach_init : reachable uninit (deque_init uninit)
| reach_push m item m' :
    reachable uninit m -> item <> ABT_UNIT_NULL ->
    deque_push uninit item m = Returns tt m' -> reachable uninit m'
| reach_pop m fuel r m' :
    reachable uninit m ->
    deque_pop_local fuel m = Returns r m' -> reachable uninit m'
| reach_steal m fuel r m' :
    reachable uninit m ->
    deque_pop_steal fuel m = Returns r m' -> reachable uninit m'
| reach_remove m fuel item r m' :
    reachable uninit m ->
    deque_remove fuel item m = Returns r m' -> reachable uninit m'.

(** ** The states of the scenarios *)

Definition fresh : data_t := deque_init zeroed.

(** After 255, 256 and 257 pushes into a fresh deque. *)
Definition m255 : data_t := final (push_all zeroed (items 255) fresh).
Definition m256 : data_t := final (deque_push zeroed 256 m255).
Definition m257 : data_t := final (deque_push zeroed 257 m256).

(** A, B, C, D, E are 1, 2, 3, 4, 5: after the five pushes, after
    remove(C), and after the two steals that follow. *)
Definition m_abcde : data_t := final (push_all zeroed (items 5) fresh).
Definition m_removed : data_t := final (deque_remove 8 3 m_abcde).
Definition m_stolen2 : data_t :=
  final (deque_pop_steal 8 (final (deque_pop_steal 8 m_removed))).

(** The same five items as the owner sees them while a thief holds the
    foreign lock. *)
Definition m_lock_held : data_t :=
  Data (unit_array m_abcde) 256 255 0 5 Locked.

(** A full deque of 256 items whose tail has reached [SIZE_MAX]. *)
Definition full_at_max : data_t :=
  Data (items 256) 256 255 (SIZE_MAX - 256) SIZE_MAX Unlocked.

(** 255 live items, one below full, under a tail that has reached
    [SIZE_MAX]: the indices [SIZE_MAX - 255 .. SIZE_MAX - 1] are the slots
    0 .. 254. Then 256 is pushed. *)
Definition near_full_at_max : data_t :=
  Data (items 255 ++ [ABT_UNIT_NULL]) 256 255 (SIZE_MAX - 255) SIZE_MAX Unlocked.
Definition near_full_collapsed : data_t := final (wrap_guard near_full_at_max).
Definition near_full_pushed : data_t := final (deque_push zeroed 256 near_full_at_max).

(** Three live items below a tail that has reached [SIZE_MAX]; they sit in
    slots 252, 253 and 254. *)
Definition three_at_max : data_t :=
  Data (replicate 252 ABT_UNIT_NULL ++ [1; 2; 3; ABT_UNIT_NULL])
       256 255 (SIZE_MAX - 3) SIZE_MAX Unlocked.

(** An emptied deque: three items went in and out. *)
Definition emptied : data_t :=
  Data (replicate 256 ABT_UNIT_NULL) 256 255 3 3 Unlocked.

(** After one push into a fresh deque. *)
Definition m_one : data_t := final (deque_push zeroed 1 fresh).

(** After 512, 513 and 514 pushes into a fresh deque. *)
Definition m512 : data_t := final (push_all zeroed (items 512) fresh).
Definition m513 : data_t := final (deque_push zeroed 513 m512).
Definition m514 : data_t := final (deque_push zeroed 514 m513).

(** The first [n] slots of [new_array] are the window of [old] that starts
    at index [h]: [new_array[i] = old[(i + h) & mk]]. *)
Definition window_copied (old : list ABT_unit) (h mk : Z)
    (new_array : list ABT_unit) (n : nat) : bool :=
  forallb (fun i : nat =>
             bool_decide (new_array !! i
                          = old !! Z.to_nat (Z.land (size_t (Z.of_nat i + h)) mk)))
          (seq 0 n).

(** Push [1..n] into a fresh deque, then drain it with [n + 1] local pops
    (resp. steals): are the items returned in reverse (resp. push) order and
    followed by NULL? *)
Definition lifo_round_trip (n : nat) : bool :=
  bool_decide
    (returned ((push_all zeroed (items n) ;; repeat_op (S n) (deque_pop_local 8)) fresh)
     = Some (rev (items n) ++ [ABT_UNIT_NULL])).

Definition fifo_round_trip (n : nat) : bool :=
  bool_decide
    (returned ((push_all zeroed (items n) ;; repeat_op (S n) (deque_pop_steal 8)) fresh)
     = Some (items n ++ [ABT_UNIT_NULL])).

(** ** Unit functions of [deque.c] *)

Module WorkItem.

(** Modelled from the spec: the declarations of [ABTI_unit] and
    [ABT_unit_type] are in headers that are not under src/. A work item has
    a discriminant (thread-like or task-like), a handle for each variant, a
    back-reference to its pool and two linkage slots; these are the fields
    the unit functions read and write. *)
Inductive ABT_unit_type : Type := ABT_UNIT_TYPE_THREAD | ABT_UNIT_TYPE_TASK.

Record unit_t : Type := Unit {
  p_prev : Z;
  p_next : Z;
  pool : Z;
  type : ABT_unit_type;
  thread : Z;
  task : Z
}.

(** C's [NULL]. *)
Definition NULL : Z := 0.

Definition ABT_unit_type_eqb (a b : ABT_unit_type) : bool :=
  match a, b with
  | ABT_UNIT_TYPE_THREAD, ABT_UNIT_TYPE_THREAD => true
  | ABT_UNIT_TYPE_TASK, ABT_UNIT_TYPE_TASK => true
  | _, _ => false
  end.

Section Sentinels.

(** The sentinel handles are defined in a header that is not under src/;
    whatever their values are, the functions only compare with them and
    return them. *)
Variables ABT_THREAD_NULL ABT_TASK_NULL ABT_POOL_NULL : Z.

Definition unit_get_type (p_unit : unit_t) : ABT_unit_type := type p_unit.

Definition unit_get_thread (p_unit : unit_t) : Z :=
  if ABT_unit_type_eqb (type p_unit) ABT_UNIT_TYPE_THREAD
  then thread p_unit
  else ABT_THREAD_NULL.

Definition unit_get_task (p_unit : unit_t) : Z :=
  if ABT_unit_type_eqb (type p_unit) ABT_UNIT_TYPE_TASK
  then task p_unit
  else ABT_TASK_NULL.

(** [ABT_TRUE] is [true], [ABT_FALSE] is [false]. *)
Definition unit_is_in_pool (p_unit : unit_t) : bool :=
  negb (pool p_unit =? ABT_POOL_NULL).

(** [unit_def] is what the storage inside the thread object holds before
    the call; the result is what it holds afterwards. The function writes
    five fields and leaves [task] alone. *)
Definition unit_create_from_thread (unit_def : unit_t) (h_thread : Z) : unit_t :=
  Unit NULL NULL ABT_POOL_NULL ABT_UNIT_TYPE_THREAD h_thread (task unit_def).

Definition unit_create_from_task (unit_def : unit_t) (h_task : Z) : unit_t :=
  Unit NULL NULL ABT_POOL_NULL ABT_UNIT_TYPE_TASK (thread unit_def) h_task.

End Sentinels.

(** [*unit = ABT_UNIT_NULL]: what the caller's handle holds afterwards. *)
Definition unit_free (unit_handle : ABT_unit) : ABT_unit := ABT_UNIT_NULL.

End WorkItem.

(** ** Threads around the ticket lock

    [ABTI_ticket_lock_acquire] is a fetch-and-add followed by a loop of
    atomic loads, [ABTI_ticket_lock_release] is one fetch-and-add. Several
    threads interleave at these atomic actions. *)

Module Threads.

Import TicketLock.

(** Where a thread is between acquire and release. *)
Inductive pc : Type :=
| Idle                       (* outside the lock *)
| Waiting (my_ticket : Z)    (* in the while loop of acquire *)
| Holding.                   (* between acquire and release *)

Record world : Type := World {
  lock : ABTI_ticket_lock;
  threads : list pc
}.

(** The next atomic action of thread [t]: the fetch-and-add that takes a
    ticket, one test of the while loop, or the fetch-and-add of release. *)
Definition step (t : nat) (w : world) : world :=
  match threads w !! t with
  | Some Idle =>
      World (Lock (uint32 (next_ticket (lock w) + 1)) (now_serving (lock w)))
            (<[t := Waiting (next_ticket (lock w))]> (threads w))
  | Some (Waiting my_ticket) =>
      if now_serving (lock w) =? my_ticket
      then World (lock w) (<[t := Holding]> (threads w))
      else w
  | Some Holding =>
      World (ABTI_ticket_lock_release (lock w)) (<[t := Idle]> (threads w))
  | None => w
  end.

(** The threads take their steps in the order of the schedule. *)
Fixpoint run (schedule : list nat) (w : world) : world :=
  match schedule with
  | [] => w
  | t :: rest => run rest (step t w)
  end.

(** [n] threads and a lock that was just created. *)
Definition init (n : nat) : world :=
  World ABTI_ticket_lock_create (replicate n Idle).

Definition is_busy (st : pc) : bool :=
  match st with Idle => false | _ => true end.

(** The number of threads that hold a ticket. *)
Definition busy (l : list pc) : nat := length (List.filter is_busy l).

(** How far the ticket of a thread is from the one being served. *)
Definition offset (serving : Z) (st : pc) : option Z :=
  match st with
  | Idle => None
  | Waiting k => Some (uint32 (k - serving))
  | Holding => Some 0
  end.

(** The tickets in use are the [busy] tickets that follow the one being
    served, one per thread. *)
Record ticket_inv (w : world) : Prop := {
  tinv_threads : Z.of_nat (length (threads w)) < 2 ^ 32;
  tinv_serving : 0 <= now_serving (lock w) < 2 ^ 32;
  tinv_next : next_ticket (lock w)
              = uint32 (now_serving (lock w) + Z.of_nat (busy (threads w)));
  tinv_range : forall t st o,
      threads w !! t = Some st -> offset (now_serving (lock w)) st = Some o ->
      0 <= o < Z.of_nat (busy (threads w));
  tinv_distinct : forall t1 t2 st1 st2 o,
      threads w !! t1 = Some st1 -> threads w !! t2 = Some st2 ->
      offset (now_serving (lock w)) st1 = Some o ->
      offset (now_serving (lock w)) st2 = Some o ->
      t1 = t2
}.

(** Every ticket between the one served and the next one to hand out is in
    the hands of a thread, and tickets are [uint32] values. *)
Definition ticket_cover (w : world) : Prop :=
  (forall t k, threads w !! t = Some (Waiting k) -> 0 <= k < 2 ^ 32) /\
  (forall o, 0 <= o < Z.of_nat (busy (threads w)) ->
             exists t st, threads w !! t = Some st /\
                          offset (now_serving (lock w)) st = Some o).

End Threads.

(** ** The contents of the live range *)

(** The items of the live range, from the head to the tail. *)
Definition contents (m : data_t) : list ABT_unit :=
  map (fun i : nat =>
         nth (Z.to_nat (Z.land (head_idx m + Z.of_nat i) (mask m)))
             (unit_array m) ABT_UNIT_NULL)
      (seq 0 (Z.to_nat (tail_idx m - head_idx m))).

(** ** More states *)

(** B, C, D, E after A has been stolen: H = 1, T = 5. *)
Definition m_bcde : data_t := final (deque_pop_steal 8 m_abcde).

(** A, B and the tombstone of C on top: after remove(C), E and D have been
    popped. H = 0, T = 3. *)
Definition m_ab_tomb : data_t :=
  final (deque_pop_local 8 (final (deque_pop_local 8 m_removed))).

(** The same while a thief holds the foreign lock. *)
Definition m_lock_held_tomb : data_t :=
  Data (unit_array m_ab_tomb) 256 255 0 3 Locked.

(** Nothing but three tombstones in the live range [2, 5). *)
Definition three_tombstones : data_t :=
  Data (replicate 256 ABT_UNIT_NULL) 256 255 2 5 Unlocked.

(** One tombstone is all that is left: H = 2, T = 3. *)
Definition last_tombstone : data_t :=
  Data (replicate 256 ABT_UNIT_NULL) 256 255 2 3 Unlocked.

(** ** Proof tools *)

(** Closed facts about a concrete run are settled by running it; the
    conjuncts are taken one at a time. *)
Ltac run := vm_compute; reflexivity.
Ltac by_running := repeat (split; [run |]); run.

(** Open the monad: every operation becomes a function on states. *)
Ltac unfold_ops :=
  unfold bind, get, ret, load, store, ABTI_mutex_spinlock, ABTI_mutex_unlock,
    set_unit_array, set_mask, set_head_idx, set_tail_idx, set_foreign_lock.

(** ** Arithmetic of indices *)

Lemma land_bounds (a b : Z) : 0 <= a -> 0 <= b -> 0 <= Z.land a b <= b.
Proof.
  intros Ha Hb. split.
  - apply Z.land_nonneg. now left.
  - destruct a as [|p|p], b as [|q|q]; cbv [Z.land]; try lia.
    pose proof (N.land_le_r (N.pos p) (N.pos q)) as H. cbv [N.land] in H. lia.
Qed.

Lemma size_t_small (x : Z) : 0 <= x <= SIZE_MAX -> size_t x = x.
Proof. unfold size_t, SIZE_MAX. intros H. apply Z.mod_small. lia. Qed.

Lemma size_t_range (x : Z) : 0 <= size_t x <= SIZE_MAX.
Proof.
  unfold size_t, SIZE_MAX.
  pose proof (Z.mod_pos_bound x (2 ^ 64) ltac:(lia)). lia.
Qed.

Lemma slot_in_block (m : data_t) (i : Z) :
  0 <= i -> 0 <= mask m < Z.of_nat (length (unit_array m)) ->
  (Z.to_nat (Z.land i (mask m)) < length (unit_array m))%nat.
Proof.
  intros Hi Hm. pose proof (land_bounds i (mask m) Hi ltac:(lia)). lia.
Qed.

(** ** Local pop on an empty deque *)

(** C9. When the deque is empty (H >= T), local pop returns the NULL
    sentinel at once and the state it leaves is the state it found: head,
    tail, mask, array length, lock and every slot. *)
Theorem C9_pop_local_empty (m : data_t) (fuel : nat) :
  head_idx m >= tail_idx m ->
  deque_pop_local (S fuel) m = Returns ABT_UNIT_NULL m.
Proof.
  intros Hempty. simpl. unfold bind, get, ret.
  destruct (Z.geb_spec (head_idx m) (tail_idx m)) as [_ | Hlt]; [reflexivity | lia].
Qed.

(** An emptied deque, H = T = 3. *)
Lemma C9_pop_local_empty_witness :
  head_idx emptied >= tail_idx emptied /\
  deque_pop_local 1 emptied = Returns ABT_UNIT_NULL emptied.
Proof.
  split; [simpl; lia | apply (C9_pop_local_empty emptied 0); simpl; lia].
Defined.

(** ** The fast path of push *)

Lemma wrap_guard_below_max (m : data_t) :
  tail_idx m <> SIZE_MAX -> wrap_guard m = Returns (tail_idx m) m.
Proof.
  intros Hne. unfold wrap_guard, bind, get.
  destruct (Z.eqb_spec (tail_idx m) SIZE_MAX); [contradiction | reflexivity].
Qed.

Lemma push_fast_spec (m : data_t) (tail : Z) (item : ABT_unit) :
  0 <= tail < SIZE_MAX ->
  0 <= mask m < Z.of_nat (length (unit_array m)) ->
  push_fast tail item m =
    Returns tt (Data (<[Z.to_nat (Z.land tail (mask m)) := item]> (unit_array m))
                     (array_length m) (mask m) (head_idx m) (tail + 1)
                     (foreign_lock m)).
Proof.
  intros Ht Hm. unfold push_fast, bind, get, store.
  rewrite bool_decide_eq_true_2 by (apply slot_in_block; lia).
  unfold set_unit_array, set_tail_idx. simpl.
  rewrite size_t_small by lia. reflexivity.
Qed.

(** A store on the fast path is within the block exactly when the slot
    [tail & mask] is. *)
Lemma push_fast_in_block (m : data_t) (tail : Z) (item : ABT_unit) :
  0 <= tail < SIZE_MAX ->
  (Z.to_nat (Z.land tail (mask m)) < length (unit_array m))%nat ->
  push_fast tail item m =
    Returns tt (Data (<[Z.to_nat (Z.land tail (mask m)) := item]> (unit_array m))
                     (array_length m) (mask m) (head_idx m) (tail + 1)
                     (foreign_lock m)).
Proof.
  intros Ht Hin. unfold push_fast, bind, get, store.
  rewrite bool_decide_eq_true_2 by exact Hin.
  unfold set_unit_array, set_tail_idx. simpl.
  rewrite size_t_small by lia. reflexivity.
Qed.

Lemma push_fast_outside_block (m : data_t) (tail : Z) (item : ABT_unit) :
  (length (unit_array m) <= Z.to_nat (Z.land tail (mask m)))%nat ->
  push_fast tail item m = Faults m.
Proof.
  intros Hout. unfold push_fast, bind, get, store.
  rewrite bool_decide_eq_false_2 by lia. reflexivity.
Qed.

(** ** The slow path of push *)

(** Whatever the slow path does, it leaves the number of live items
    [T - H] as it found it: line 102 reads the tail and writes nothing. *)
Lemma push_slow_keeps_count (uninit : nat -> ABT_unit) (tail : Z)
    (item : ABT_unit) (m m' : data_t) :
  push_slow uninit tail item m = Returns tt m' ->
  size_t (tail_idx m' - head_idx m') = size_t (tail_idx m - head_idx m).
Proof.
  unfold push_slow, bind, get, ABTI_mutex_spinlock, ABTI_mutex_unlock,
    set_foreign_lock.
  destruct (foreign_lock m); simpl; [| discriminate].
  destruct (size_t (tail_idx m - head_idx m) >=? mask m).
  - unfold grow, bind, get. simpl.
    destruct (copy_loop _ _ _ _ _ _) as [new_array |]; simpl; [| discriminate].
    unfold store. simpl.
    destruct (bool_decide _); simpl; [| discriminate].
    intros [= <-]. simpl. rewrite Z.sub_0_r. unfold size_t.
    apply Z.mod_mod. lia.
  - unfold ret, store. simpl.
    destruct (bool_decide _); simpl; [| discriminate].
    intros [= <-]. reflexivity.
Qed.

(** C1. The 256th push into a fresh deque takes the slow path (255 < 0 + 255
    fails) and grows the array; the item is stored at [array[t & mask]],
    slot 255, but the tail index is the same after the push as before it, so
    [T - H] has not increased by one. *)
Theorem C1_slow_push_does_not_publish_tail :
  push_all zeroed (items 255) fresh = Returns tt m255 /\
  (tail_idx m255 <? size_t (head_idx m255 + mask m255)) = false /\
  deque_push zeroed 256 m255 = Returns tt m256 /\
  unit_array m256 !! Z.to_nat (Z.land (tail_idx m255) (mask m256)) = Some 256 /\
  tail_idx m255 = 255 /\
  tail_idx m256 = 255 /\
  size_t (tail_idx m256 - head_idx m256) = size_t (tail_idx m255 - head_idx m255).
Proof. by_running. Qed.

(** ** Reachable states and the invariants *)

Lemma reachable_push_all (uninit : nat -> ABT_unit) (l : list ABT_unit) :
  forall m m',
    reachable uninit m ->
    Forall (fun x => x <> ABT_UNIT_NULL) l ->
    push_all uninit l m = Returns tt m' ->
    reachable uninit m'.
Proof.
  induction l as [| x rest IH]; intros m m' Hm Hl Hrun.
  - simpl in Hrun. unfold ret in Hrun. congruence.
  - inversion Hl as [| ? ? Hx Hrest]; subst.
    simpl in Hrun. unfold bind in Hrun.
    destruct (deque_push uninit x m) as [[] m1 | | |] eqn:Hpush; try discriminate.
    eapply IH; [| exact Hrest | exact Hrun].
    eapply reach_push; eassumption.
Qed.

Lemma items_not_null (n : nat) : Forall (fun x => x <> ABT_UNIT_NULL) (items n).
Proof.
  apply Forall_forall. intros x Hx. unfold items in Hx.
  apply list_elem_of_In, in_map_iff in Hx. destruct Hx as [k [<- Hk]].
  apply in_seq in Hk. unfold ABT_UNIT_NULL. lia.
Qed.

(** C2. 256 pushes of distinct items into a fresh, zero-filled deque lead
    to a state with H = 0 and T = 255 in which slot 255 holds the item 256:
    no index of the live range [0, 255) maps to that slot, so a slot outside
    the live range is not NULL and the invariants do not hold. *)
Theorem C2_slot_outside_live_range_not_null :
  reachable zeroed m256 /\
  head_idx m256 = 0 /\ tail_idx m256 = 255 /\ mask m256 = 511 /\
  unit_array m256 !! 255%nat = Some 256 /\
  (forall i, 0 <= i < 255 -> Z.land i (mask m256) <> 255) /\
  slots_outside_null m256 = false /\
  ~ deque_inv m256.
Proof.
  split; [| do 4 (split; [run |]); split; [| split; [run |]]].
  - apply (reach_push zeroed m255 256 m256).
    + apply (reachable_push_all zeroed (items 255) fresh m255).
      * apply reach_init.
      * apply items_not_null.
      * run.
    + discriminate.
    + run.
  - intros i Hi. replace (mask m256) with (Z.ones 9) by run.
    rewrite Z.land_ones by lia. rewrite Z.mod_small; [lia |].
    change (2 ^ 9) with 512. lia.
  - intros [_ _ _ _ _ _ Hnull _]. vm_compute in Hnull. discriminate.
Qed.

(** ** Remove of an item that is not in the deque *)

(** With [H = 0] the test [i >= m->head_idx] of the scan holds for every
    [size_t] value of [i]; an item that no slot holds is then looked for
    for ever. *)
Lemma remove_scan_never_ends (item : ABT_unit) (m : data_t) :
  head_idx m = 0 ->
  0 <= mask m < Z.of_nat (length (unit_array m)) ->
  item ∉ unit_array m ->
  forall (fuel : nat) (i : Z), remove_scan fuel (size_t i) item m = OutOfFuel.
Proof.
  intros Hh Hm Hno. induction fuel as [| fuel IH]; intros i.
  - reflexivity.
  - cbn [remove_scan]. unfold bind, get. rewrite Hh.
    pose proof (size_t_range i) as Hi.
    destruct (Z.geb_spec (size_t i) 0) as [_ | Hneg]; [| lia].
    unfold load.
    destruct (unit_array m !! Z.to_nat (Z.land (size_t i) (mask m))) as [u |] eqn:Hu.
    + destruct (Z.eqb_spec u item) as [-> | _].
      * exfalso. apply Hno. eapply list_elem_of_lookup_2. exact Hu.
      * apply IH.
    + exfalso. apply lookup_ge_None in Hu.
      pose proof (slot_in_block m (size_t i) ltac:(lia) Hm). lia.
Qed.

Lemma deque_remove_never_ends (item : ABT_unit) (m : data_t) :
  head_idx m = 0 ->
  0 <= mask m < Z.of_nat (length (unit_array m)) ->
  item ∉ unit_array m ->
  forall fuel : nat, deque_remove fuel item m = OutOfFuel.
Proof.
  intros Hh Hm Hno fuel. unfold deque_remove, bind, get, load.
  pose proof (size_t_range (tail_idx m - 1)) as Hi.
  destruct (unit_array m !! Z.to_nat (Z.land (size_t (tail_idx m - 1)) (mask m)))
    as [u |] eqn:Hu.
  - destruct (Z.eqb_spec u item) as [-> | _].
    + exfalso. apply Hno. eapply list_elem_of_lookup_2. exact Hu.
    + apply remove_scan_never_ends; assumption.
  - exfalso. apply lookup_ge_None in Hu.
    pose proof (slot_in_block m (size_t (tail_idx m - 1)) ltac:(lia) Hm). lia.
Qed.

Lemma inv_m_one : deque_inv m_one.
Proof.
  constructor; try (vm_compute; intuition discriminate).
  exists 8. split; [lia | run].
Qed.

(** C3. One item, 1, is pushed into a fresh deque; the state satisfies the
    invariants and the item 2 is in no slot. remove(2) does not return
    not-found: with H = 0 the scan index wraps below zero to [SIZE_MAX] and
    the loop is still running whatever fuel it is given. *)
Theorem C3_remove_of_absent_item_never_returns :
  deque_push zeroed 1 fresh = Returns tt m_one /\
  deque_inv m_one /\
  (2 ∉ unit_array m_one) /\
  forall fuel : nat, deque_remove fuel 2 m_one = OutOfFuel.
Proof.
  assert (Habsent : 2 ∉ unit_array m_one).
  { apply (bool_decide_eq_false_1 (2 ∈ unit_array m_one)). run. }
  split; [run |]. split; [exact inv_m_one |]. split; [exact Habsent |].
  apply deque_remove_never_ends.
  - run.
  - vm_compute. intuition discriminate.
  - exact Habsent.
Qed.

(** ** The ticket lock is not reentrant *)

Lemma ticket_lock_acquire_fresh :
  TicketLock.ABTI_ticket_lock_acquire TicketLock.ABTI_ticket_lock_create
  = Some (TicketLock.Lock 1 0).
Proof. reflexivity. Qed.

(** A thread that holds the ticket lock and asks for it again waits for
    ever: its new ticket is not the one being served. *)
Lemma ticket_lock_not_reentrant (l l' : TicketLock.ABTI_ticket_lock) :
  TicketLock.ABTI_ticket_lock_acquire l = Some l' ->
  TicketLock.ABTI_ticket_lock_acquire l' = None.
Proof.
  unfold TicketLock.ABTI_ticket_lock_acquire. destruct l as [n s]. simpl.
  destruct (Z.eqb_spec s n) as [-> | _]; [| discriminate].
  intros [= <-]. simpl.
  destruct (Z.eqb_spec n (TicketLock.uint32 (n + 1))) as [Heq | _]; [| reflexivity].
  exfalso. unfold TicketLock.uint32 in Heq.
  pose proof (Z.mod_pos_bound (n + 1) (2 ^ 32) ltac:(lia)) as Hb.
  assert (Hsmall : 0 <= n < 2 ^ 32) by lia.
  destruct (Z.eq_dec n (2 ^ 32 - 1)) as [-> | Hne].
  - vm_compute in Heq. discriminate.
  - rewrite Z.mod_small in Heq by lia. lia.
Qed.

Lemma ticket_lock_release_acquire (l l' : TicketLock.ABTI_ticket_lock) :
  0 <= TicketLock.next_ticket l < 2 ^ 32 - 1 ->
  TicketLock.ABTI_ticket_lock_acquire l = Some l' ->
  TicketLock.ABTI_ticket_lock_acquire (TicketLock.ABTI_ticket_lock_release l')
  = Some (TicketLock.Lock (TicketLock.uint32 (TicketLock.next_ticket l + 2))
                          (TicketLock.next_ticket l + 1)).
Proof.
  unfold TicketLock.ABTI_ticket_lock_acquire, TicketLock.ABTI_ticket_lock_release.
  destruct l as [n s]. simpl. intros Hn.
  destruct (Z.eqb_spec s n) as [-> | _]; [| discriminate].
  intros [= <-]. simpl.
  assert (Hnext : TicketLock.uint32 (n + 1) = n + 1).
  { unfold TicketLock.uint32. apply Z.mod_small. lia. }
  rewrite !Hnext, Z.eqb_refl. do 3 f_equal. lia.
Qed.

(** ** Steal over a tombstone *)

(** A steal that reads a tombstone at the head takes the [continue] of line
    183: the head has advanced and the foreign lock is still held. *)
Lemma steal_skips_tombstone (m : data_t) (fuel : nat) :
  head_idx m < tail_idx m ->
  foreign_lock m = Unlocked ->
  unit_array m !! Z.to_nat (Z.land (head_idx m) (mask m)) = Some ABT_UNIT_NULL ->
  deque_pop_steal (S fuel) m =
    deque_pop_steal fuel
      (Data (unit_array m) (array_length m) (mask m)
            (size_t (head_idx m + 1)) (tail_idx m) Locked).
Proof.
  destruct m as [a len mk h t l]. simpl.
  intros Hlt -> Hslot.
  unfold_ops. simpl.
  destruct (Z.geb_spec h t) as [Hge | _]; [lia |]. simpl.
  destruct (Z.ltb_spec h t) as [_ | Hge]; [| lia]. simpl.
  rewrite Hslot. reflexivity.
Qed.

(** A steal on a deque that is not empty asks for the foreign lock; when
    the lock is held it waits. *)
Lemma steal_waits_when_locked (m : data_t) (fuel : nat) :
  head_idx m < tail_idx m ->
  foreign_lock m = Locked ->
  deque_pop_steal (S fuel) m = Spins m.
Proof.
  intros Hlt Hheld.
  cbn [deque_pop_steal]. unfold bind, get, ABTI_mutex_spinlock.
  destruct (Z.geb_spec (head_idx m) (tail_idx m)) as [Hge | _]; [lia |].
  rewrite Hheld. reflexivity.
Qed.

Lemma steal_spins_on_tombstone (m : data_t) (fuel : nat) :
  head_idx m < tail_idx m ->
  size_t (head_idx m + 1) < tail_idx m ->
  foreign_lock m = Unlocked ->
  unit_array m !! Z.to_nat (Z.land (head_idx m) (mask m)) = Some ABT_UNIT_NULL ->
  deque_pop_steal (S (S fuel)) m =
    Spins (Data (unit_array m) (array_length m) (mask m)
                (size_t (head_idx m + 1)) (tail_idx m) Locked).
Proof.
  intros Hlt Hnext Hfree Hslot.
  rewrite steal_skips_tombstone by assumption.
  apply steal_waits_when_locked; [exact Hnext | reflexivity].
Qed.

(** C4. A, B, C, D, E (1..5) are pushed and remove(C) succeeds; the first
    two steals return A and B. The third steal reads the tombstone left in
    C's slot and never returns: it waits for the foreign lock that it holds
    itself, so D and E are not handed out. *)
Theorem C4_third_steal_never_returns :
  push_all zeroed (items 5) fresh = Returns tt m_abcde /\
  deque_remove 8 3 m_abcde = Returns ABT_SUCCESS m_removed /\
  deque_pop_steal 8 m_removed = Returns 1 (final (deque_pop_steal 8 m_removed)) /\
  deque_pop_steal 8 (final (deque_pop_steal 8 m_removed)) = Returns 2 m_stolen2 /\
  (forall fuel : nat,
     deque_pop_steal (S (S fuel)) m_stolen2 =
       Spins (Data (unit_array m_stolen2) 256 255 3 5 Locked)) /\
  (forall (fuel : nat) (r : ABT_unit) (m' : data_t),
     deque_pop_steal fuel m_stolen2 <> Returns r m').
Proof.
  assert (Hspin : forall fuel : nat,
             deque_pop_steal (S (S fuel)) m_stolen2 =
               Spins (Data (unit_array m_stolen2) 256 255 3 5 Locked)).
  { intros fuel. rewrite steal_spins_on_tombstone.
    - f_equal.
    - vm_compute. reflexivity.
    - vm_compute. reflexivity.
    - run.
    - run. }
  do 4 (split; [run |]). split; [exact Hspin |].
  intros [| [| fuel]] r m'.
  - discriminate.
  - vm_compute. discriminate.
  - rewrite Hspin. discriminate.
Qed.

(** ** Push N items, then drain *)

(** As long as every push takes the fast path, that is up to 255 items,
    the round trips are as the specification says. *)
Lemma lifo_round_trip_below_256 :
  forallb lifo_round_trip (seq 0 256) = true.
Proof. run. Qed.

Lemma fifo_round_trip_below_256 :
  forallb fifo_round_trip (seq 0 256) = true.
Proof. run. Qed.

(** C5. 256 distinct items are pushed into a fresh deque and local pop is
    called 257 times: the pops return 255, 254, ..., 1 and then NULL twice.
    The item pushed last, 256, is never returned. *)
Theorem C5_pop_all_after_256_pushes :
  returned ((push_all zeroed (items 256) ;; repeat_op 257 (deque_pop_local 8)) fresh)
    = Some (rev (items 255) ++ [ABT_UNIT_NULL; ABT_UNIT_NULL]) /\
  rev (items 255) ++ [ABT_UNIT_NULL; ABT_UNIT_NULL]
    <> rev (items 256) ++ [ABT_UNIT_NULL].
Proof.
  split; [run |]. vm_compute. discriminate.
Qed.

(** C6. 256 distinct items are pushed into a fresh deque and steal is
    called 257 times by one thief: the steals return 1, 2, ..., 255 and then
    NULL twice. The item pushed last, 256, is never returned. *)
Theorem C6_steal_all_after_256_pushes :
  returned ((push_all zeroed (items 256) ;; repeat_op 257 (deque_pop_steal 8)) fresh)
    = Some (items 255 ++ [ABT_UNIT_NULL; ABT_UNIT_NULL]) /\
  items 255 ++ [ABT_UNIT_NULL; ABT_UNIT_NULL] <> items 256 ++ [ABT_UNIT_NULL].
Proof.
  split; [run |]. vm_compute. intros Heq.
  apply (f_equal (fun l => nth 255 l 0)) in Heq. vm_compute in Heq. discriminate.
Qed.

(** ** The wrap guard *)

Lemma land_mask_pow2 (x k : Z) : 0 <= k -> Z.land x (2 ^ k - 1) = x mod 2 ^ k.
Proof.
  intros Hk. rewrite <- Z.land_ones by exact Hk.
  rewrite Z.ones_equiv. reflexivity.
Qed.

Lemma below_max_mod_pow2 (k c : Z) :
  0 <= k < 64 -> 0 <= c < 2 ^ k -> (SIZE_MAX - c) mod 2 ^ k = 2 ^ k - 1 - c.
Proof.
  intros Hk Hc.
  assert (Hmax : SIZE_MAX mod 2 ^ k = 2 ^ k - 1).
  { change SIZE_MAX with (Z.ones 64). rewrite Z.ones_mod_pow2 by lia.
    rewrite Z.ones_equiv. lia. }
  pose proof (Z.div_mod SIZE_MAX (2 ^ k) ltac:(lia)) as Hdiv.
  symmetry. apply (Z.mod_unique _ _ (SIZE_MAX / 2 ^ k)); lia.
Qed.

Lemma pow2_below_max (k : Z) : 0 <= k < 64 -> 0 < 2 ^ k <= 2 ^ 63.
Proof.
  intros Hk. split; [lia |]. apply Z.pow_le_mono_r; lia.
Qed.

Lemma wrap_guard_at_max (m : data_t) :
  tail_idx m = SIZE_MAX -> foreign_lock m = Unlocked ->
  wrap_guard m =
    Returns (Z.land (tail_idx m) (mask m))
      (Data (unit_array m) (array_length m) (mask m)
            (Z.land (head_idx m) (mask m)) (Z.land (tail_idx m) (mask m)) Unlocked).
Proof.
  destruct m as [a len mk h t l]. simpl. intros -> ->.
  unfold wrap_guard. unfold_ops. simpl. reflexivity.
Qed.

Lemma pop_local_takes_top (m : data_t) (item : ABT_unit) (fuel : nat) :
  0 <= head_idx m < tail_idx m -> tail_idx m <= SIZE_MAX ->
  0 <= mask m < Z.of_nat (length (unit_array m)) ->
  item <> ABT_UNIT_NULL ->
  unit_array m !! Z.to_nat (Z.land (tail_idx m - 1) (mask m)) = Some item ->
  deque_pop_local (S fuel) m =
    Returns item
      (Data (<[Z.to_nat (Z.land (tail_idx m - 1) (mask m)) := ABT_UNIT_NULL]> (unit_array m))
            (array_length m) (mask m) (head_idx m) (tail_idx m - 1) (foreign_lock m)).
Proof.
  destruct m as [a len mk h t l]. simpl. intros Hh Ht Hm Hitem Hslot.
  unfold_ops. simpl.
  destruct (Z.geb_spec h t) as [Hge | _]; [lia |]. simpl.
  rewrite (size_t_small (t - 1)) by lia.
  destruct (Z.leb_spec h (t - 1)) as [_ | Hgt]; [| lia]. simpl.
  rewrite Hslot.
  destruct (Z.eqb_spec item ABT_UNIT_NULL) as [Heq | _]; [contradiction |]. simpl.
  rewrite bool_decide_eq_true_2; [reflexivity |].
  pose proof (land_bounds (t - 1) mk ltac:(lia) ltac:(lia)). lia.
Qed.


Lemma inv_full_at_max : deque_inv full_at_max.
Proof.
  constructor; try (vm_compute; intuition discriminate).
  exists 8. split; [lia | run].
Qed.

Lemma inv_three_at_max : deque_inv three_at_max.
Proof.
  constructor; try (vm_compute; intuition discriminate).
  exists 8. split; [lia | run].
Qed.

(** A full deque (L = 256 live items, every slot in the live range) whose
    tail is [SIZE_MAX]: the wrap guard sends both indices to 255, so the
    live count T - H = 256 becomes T' - H' = 0. Masking keeps counts below L
    only; push itself never leaves more than [mask] = L - 1 live items. *)
Lemma wrap_guard_on_full_deque :
  deque_inv full_at_max /\
  tail_idx full_at_max = SIZE_MAX /\
  exists mc,
    wrap_guard full_at_max = Returns 255 mc /\
    head_idx mc = Z.land (head_idx full_at_max) (mask full_at_max) /\
    tail_idx mc = Z.land (tail_idx full_at_max) (mask full_at_max) /\
    size_t (tail_idx full_at_max - head_idx full_at_max) = 256 /\
    size_t (tail_idx mc - head_idx mc) = 0.
Proof.
  split; [exact inv_full_at_max |]. split; [reflexivity |].
  exists (final (wrap_guard full_at_max)). by_running.
Qed.

Lemma inv_near_full_at_max : deque_inv near_full_at_max.
Proof.
  constructor; try (vm_compute; intuition discriminate).
  exists 8. split; [lia | run].
Qed.

(** C7. Push is called with T = [SIZE_MAX] on a deque that satisfies the
    invariants and holds 255 = L - 1 items. The wrap guard replaces H with
    [H & mask] = 0 and T with [T & mask] = 255 and keeps the live count, and
    T' <= L. The push then goes through the slow path and grows; the item is
    stored in slot 255, but the tail stays 255 (line 102 writes nothing), so
    the item is outside the live range: the local pop that follows returns
    255, the item pushed before it, and popping to exhaustion never returns
    the pushed item. *)
Theorem C7_push_at_max_is_not_popped :
  deque_inv near_full_at_max /\
  tail_idx near_full_at_max = SIZE_MAX /\
  size_t (tail_idx near_full_at_max - head_idx near_full_at_max) = 255 /\
  wrap_guard near_full_at_max = Returns 255 near_full_collapsed /\
  head_idx near_full_collapsed
    = Z.land (head_idx near_full_at_max) (mask near_full_at_max) /\
  tail_idx near_full_collapsed
    = Z.land (tail_idx near_full_at_max) (mask near_full_at_max) /\
  size_t (tail_idx near_full_collapsed - head_idx near_full_collapsed)
    = size_t (tail_idx near_full_at_max - head_idx near_full_at_max) /\
  (tail_idx near_full_collapsed <=? array_length near_full_at_max) = true /\
  deque_push zeroed 256 near_full_at_max = Returns tt near_full_pushed /\
  unit_array near_full_pushed !! 255%nat = Some 256 /\
  head_idx near_full_pushed = 0 /\
  tail_idx near_full_pushed = 255 /\
  returned (deque_pop_local 8 near_full_pushed) = Some 255 /\
  returned (repeat_op 257 (deque_pop_local 8) near_full_pushed)
    = Some (rev (items 255) ++ [ABT_UNIT_NULL; ABT_UNIT_NULL]) /\
  (256 ∉ rev (items 255) ++ [ABT_UNIT_NULL; ABT_UNIT_NULL]).
Proof.
  split; [exact inv_near_full_at_max |].
  do 13 (split; [run |]).
  apply (bool_decide_eq_false_1
           (256 ∈ rev (items 255) ++ [ABT_UNIT_NULL; ABT_UNIT_NULL])).
  run.
Qed.

(** ** The grow *)

Lemma length_ABTU_malloc (uninit : nat -> ABT_unit) (bytes : Z) :
  length (ABTU_malloc uninit bytes) = Z.to_nat (bytes / sizeof_ptr).
Proof. unfold ABTU_malloc. rewrite length_map, length_seq. reflexivity. Qed.

Lemma lor_shiftl_1 (x : Z) : Z.lor (Z.shiftl x 1) 1 = 2 * x + 1.
Proof.
  rewrite Z.shiftl_mul_pow2 by lia. change (2 ^ 1) with 2.
  pose proof (Z.add_lor_land (x * 2) 1) as Hadd.
  assert (Hland : Z.land (x * 2) 1 = 0).
  { change 1 with (Z.ones 1) at 1. rewrite Z.land_ones by lia.
    change (2 ^ 1) with 2. apply Z.mod_mul. lia. }
  lia.
Qed.

(** The copy loop of the grow reads the old array through the old mask and
    fills the slots [i, i + n) of the new one, as long as its index stays
    within [int]. *)
Lemma copy_loop_spec (old : list ABT_unit) (mk head : Z) :
  0 <= head -> 0 <= mk < Z.of_nat (length old) ->
  forall (n : nat) (i : Z) (new_array : list ABT_unit),
    0 <= i ->
    i + Z.of_nat n <= INT_MAX ->
    (Z.to_nat i + n <= length new_array)%nat ->
    exists new_array',
      copy_loop n i head old mk new_array = Some new_array' /\
      length new_array' = length new_array /\
      (forall j : nat,
         (Z.to_nat i <= j < Z.to_nat i + n)%nat ->
         new_array' !! j = old !! Z.to_nat (Z.land (size_t (Z.of_nat j + head)) mk)) /\
      (forall j : nat,
         (j < Z.to_nat i \/ Z.to_nat i + n <= j)%nat ->
         new_array' !! j = new_array !! j).
Proof.
  intros Hhead Hmk. induction n as [| n IH]; intros i new_array Hi Hint Hlen.
  - exists new_array. simpl. repeat split; try reflexivity. intros j Hj. lia.
  - cbn [copy_loop].
    pose proof (size_t_range (i + head)) as Hr.
    pose proof (land_bounds (size_t (i + head)) mk ltac:(lia) ltac:(lia)) as Hb.
    destruct (lookup_lt_is_Some_2 old (Z.to_nat (Z.land (size_t (i + head)) mk))
                ltac:(lia)) as [u Hu].
    rewrite Hu. rewrite bool_decide_eq_true_2 by lia.
    destruct (Z.ltb_spec i INT_MAX) as [_ | Hover]; [| lia].
    destruct (IH (i + 1) (<[Z.to_nat i := u]> new_array) ltac:(lia) ltac:(lia)
                ltac:(rewrite length_insert; lia))
      as [new_array' [Hrun [Hl [Hin Hout]]]].
    exists new_array'. split; [exact Hrun |]. split; [rewrite Hl; apply length_insert |].
    split.
    + intros j Hj. destruct (Nat.eq_dec j (Z.to_nat i)) as [-> | Hne].
      * rewrite Hout by lia. rewrite list_lookup_insert_eq by lia.
        rewrite Z2Nat.id by lia. symmetry. exact Hu.
      * apply Hin. lia.
    + intros j Hj. rewrite Hout by lia. apply list_lookup_insert_ne. lia.
Qed.

(** With more than [INT_MAX] iterations to go the loop has no defined
    result: either a slot outside a block is accessed on the way, or [i++]
    is reached with [i = INT_MAX]. *)
Lemma copy_loop_overflows (old : list ABT_unit) (mk head : Z) :
  forall (n : nat) (i : Z) (new_array : list ABT_unit),
    i <= INT_MAX -> INT_MAX < i + Z.of_nat n ->
    copy_loop n i head old mk new_array = None.
Proof.
  induction n as [| n IH]; intros i new_array Hi Hn; [lia |].
  cbn [copy_loop].
  destruct (old !! _); [| reflexivity].
  destruct (bool_decide _); [| reflexivity].
  destruct (Z.ltb_spec i INT_MAX) as [Hlt | _]; [| reflexivity].
  apply IH; lia.
Qed.

(** The slow path on a deque with T - H >= mask: the array is doubled, the
    old slots are copied from the head on, H is 0, T is the live count, the
    item is stored at slot T, and neither [tail_idx] nor [array_length] is
    written afterwards. The array must be short enough for the [int] index
    of the copy loop. *)
Lemma push_slow_grows (uninit : nat -> ABT_unit) (m : data_t) (tail : Z)
    (item : ABT_unit) :
  deque_inv m ->
  array_length m <= INT_MAX ->
  mask m <= tail_idx m - head_idx m ->
  exists m',
    push_slow uninit tail item m = Returns tt m' /\
    length (unit_array m') = (2 * length (unit_array m))%nat /\
    mask m' = 2 * mask m + 1 /\
    head_idx m' = 0 /\
    tail_idx m' = tail_idx m - head_idx m /\
    array_length m' = array_length m /\
    foreign_lock m' = Unlocked /\
    unit_array m' !! Z.to_nat (tail_idx m - head_idx m) = Some item /\
    (forall i : nat,
       (i < length (unit_array m))%nat ->
       Z.of_nat i <> tail_idx m - head_idx m ->
       unit_array m' !! i
       = unit_array m !! Z.to_nat (Z.land (size_t (Z.of_nat i + head_idx m)) (mask m))).
Proof.
  intros [Hh Ht [k [Hk Hlen]] Hmask Halloc Hcount _ Hfree] Hfit Hfull.
  destruct m as [a len mk h t l]. simpl in *. subst l mk.
  assert (Hpos : 0 < len) by (subst len; lia).
  assert (Hint : INT_MAX = 2 ^ 31 - 1) by reflexivity.
  set (fresh_block := ABTU_malloc uninit (size_t (size_t (Z.shiftl len 1) * sizeof_ptr))).
  assert (Hblock : length fresh_block = (2 * length a)%nat).
  { unfold fresh_block. rewrite length_ABTU_malloc.
    rewrite Z.shiftl_mul_pow2 by lia. change (2 ^ 1) with 2. unfold sizeof_ptr.
    rewrite (size_t_small (len * 2)) by (unfold SIZE_MAX; lia).
    rewrite (size_t_small (len * 2 * 8)) by (unfold SIZE_MAX; lia).
    replace (len * 2 * 8) with (2 * len * 8) by lia.
    rewrite Z.div_mul by lia. lia. }
  destruct (copy_loop_spec a (len - 1) h ltac:(lia) ltac:(lia)
              (Z.to_nat len) 0 fresh_block ltac:(lia) ltac:(lia) ltac:(lia))
    as [new_array [Hcopy [Hl [Hin _]]]].
  assert (Hcnt : size_t (t - h) = t - h) by (apply size_t_small; unfold SIZE_MAX; lia).
  assert (Hnewmask : size_t (Z.lor (Z.shiftl (len - 1) 1) 1) = 2 * (len - 1) + 1).
  { rewrite lor_shiftl_1. apply size_t_small. unfold SIZE_MAX. lia. }
  assert (Hidx : Z.land (t - h) (2 * (len - 1) + 1) = t - h).
  { replace (2 * (len - 1) + 1) with (2 ^ (k + 1) - 1)
      by (rewrite Z.pow_add_r by lia; change (2 ^ 1) with 2; lia).
    rewrite land_mask_pow2 by lia. apply Z.mod_small.
    rewrite Z.pow_add_r by lia. change (2 ^ 1) with 2. lia. }
  eexists. split.
  - unfold push_slow, grow. unfold_ops. simpl. rewrite Hcnt.
    destruct (Z.geb_spec (t - h) (len - 1)) as [_ | Hlt]; [| lia]. simpl.
    fold fresh_block. rewrite Hcopy. simpl.
    rewrite Hnewmask, Hidx.
    rewrite bool_decide_eq_true_2 by lia. reflexivity.
  - simpl.
    split; [rewrite length_insert; lia |].
    do 5 (split; [reflexivity || lia |]).
    split.
    + apply list_lookup_insert_eq. lia.
    + intros i Hi Hne. rewrite list_lookup_insert_ne by lia.
      apply Hin. lia.
Qed.

(** ** The grow scenario *)

(** C8. A0..A255 (1..256) are pushed into a fresh deque with L = 256, and
    then A256 (257). The push of A255 finds T - H = 255 = mask and grows: the
    new array has 512 slots, the mask is 511, [new[i] = old[(i + h) &
    old_mask]] on the live window, H is 0, T is the live count 255 and A255
    goes to slot 255; but the tail is not advanced past it (line 102 writes
    nothing). The push of A256 therefore takes the fast path with the same
    tail and overwrites slot 255. A255 is in no slot afterwards, so not all
    257 items are present, and the 257 local pops return A256, A254, A253,
    ..., A0 and NULL instead of A256, A255, ..., A0. *)
Theorem C8_grow_scenario_loses_item :
  push_all zeroed (items 255) fresh = Returns tt m255 /\
  (length (unit_array m255) = 256%nat /\ mask m255 = 255 /\
   head_idx m255 = 0 /\ tail_idx m255 = 255) /\
  deque_push zeroed 256 m255 = Returns tt m256 /\
  (length (unit_array m256) = 512%nat /\ mask m256 = 511 /\
   head_idx m256 = 0 /\ tail_idx m256 = 255) /\
  window_copied (unit_array m255) (head_idx m255) (mask m255)
                (unit_array m256) 255 = true /\
  unit_array m256 !! 255%nat = Some 256 /\
  push_all zeroed (items 256) fresh = Returns tt m256 /\
  deque_push zeroed 257 m256 = Returns tt m257 /\
  (length (unit_array m257) = 512%nat /\ mask m257 = 511 /\
   head_idx m257 = 0 /\ tail_idx m257 = 256) /\
  unit_array m257 = <[255%nat := 257]> (unit_array m256) /\
  (256 ∉ unit_array m257) /\
  returned (repeat_op 257 (deque_pop_local 8) m257)
    = Some (257 :: rev (items 255) ++ [ABT_UNIT_NULL]) /\
  257 :: rev (items 255) ++ [ABT_UNIT_NULL] <> rev (items 257).
Proof.
  split; [run |]. split; [by_running |].
  split; [run |]. split; [by_running |].
  do 4 (split; [run |]). split; [by_running |].
  split; [run |].
  split; [| split; [run |]].
  - apply (bool_decide_eq_false_1 (256 ∈ unit_array m257)). run.
  - intros Heq. apply (f_equal (fun l => nth 1 l 0)) in Heq.
    vm_compute in Heq. discriminate.
Qed.

(** ** The second grow *)

(** C10. 514 items are pushed into a fresh deque. The grow does not write
    [array_length], which stays 256: the second grow, on the 513th push,
    allocates [array_length << 1] = 512 slots again while the mask goes from
    511 to 1023. In the state after the 514th push the fast-path condition
    holds (the tail, 512, is below [SIZE_MAX] and below head + mask = 1023),
    but the slot [tail & mask] = 512 is outside the block of 512 slots: the
    push that follows stores outside the allocated array. *)
Theorem C10_fast_path_push_outside_block :
  push_all zeroed (items 512) fresh = Returns tt m512 /\
  (array_length m512 = 256 /\ mask m512 = 511 /\
   length (unit_array m512) = 512%nat /\
   head_idx m512 = 0 /\ tail_idx m512 = 511) /\
  deque_push zeroed 513 m512 = Returns tt m513 /\
  (array_length m513 = 256 /\ mask m513 = 1023 /\
   length (unit_array m513) = 512%nat /\
   head_idx m513 = 0 /\ tail_idx m513 = 511) /\
  deque_push zeroed 514 m513 = Returns tt m514 /\
  (array_length m514 = 256 /\ mask m514 = 1023 /\
   length (unit_array m514) = 512%nat /\
   head_idx m514 = 0 /\ tail_idx m514 = 512) /\
  reachable zeroed m514 /\
  (tail_idx m514 <? SIZE_MAX) = true /\
  (tail_idx m514 <? size_t (head_idx m514 + mask m514)) = true /\
  Z.land (tail_idx m514) (mask m514) = 512 /\
  unit_array m514 !! Z.to_nat (Z.land (tail_idx m514) (mask m514)) = None /\
  deque_push zeroed 515 m514 = Faults m514.
Proof.
  split; [run |]. split; [by_running |].
  split; [run |]. split; [by_running |].
  split; [run |]. split; [by_running |].
  split; [| by_running].
  assert (H514 : push_all zeroed (items 514) fresh = Returns tt m514) by run.
  pose proof (reachable_push_all zeroed (items 514) (deque_init zeroed) m514
                (reach_init zeroed) (items_not_null 514) H514) as Hreach.
  exact Hreach.
Qed.

(** * Further properties of the code *)

(** ** The invariants, slot by slot *)

Ltac settle := vm_compute; repeat split; solve [reflexivity | discriminate].

(** [slots_outside_null] slot by slot. *)
Lemma slots_outside_null_spec (m : data_t) :
  slots_outside_null m = true <->
  forall j : nat,
    (j < length (unit_array m))%nat ->
    live m (Z.of_nat j) = false ->
    unit_array m !! j = Some ABT_UNIT_NULL.
Proof.
  unfold slots_outside_null. rewrite forallb_forall. split.
  - intros Hall j Hj Hdead.
    specialize (Hall j ltac:(apply in_seq; lia)).
    rewrite Hdead in Hall. simpl in Hall. apply Z.eqb_eq in Hall.
    destruct (nth_lookup_or_length (unit_array m) j ABT_UNIT_NULL) as [Hs | Hlen];
      [| lia].
    rewrite Hs, Hall. reflexivity.
  - intros Hall j Hj. apply in_seq in Hj.
    destruct (live m (Z.of_nat j)) eqn:Hlive; [reflexivity |]. simpl.
    apply Z.eqb_eq.
    apply nth_lookup_Some. apply Hall; [lia | exact Hlive].
Qed.

(** Under the invariants the mask is [L - 1] with [L] a power of two, so
    [i & mask] is [i mod L]. *)
Lemma inv_land (m : data_t) (i : Z) :
  deque_inv m -> Z.land i (mask m) = i mod array_length m.
Proof.
  intros [_ _ [k [Hk Hlen]] Hmask _ _ _ _].
  rewrite Hmask, Hlen. apply land_mask_pow2. lia.
Qed.

Lemma inv_length_bounds (m : data_t) :
  deque_inv m -> 0 < array_length m <= 2 ^ 63.
Proof.
  intros [_ _ [k [Hk Hlen]] _ _ _ _ _]. rewrite Hlen. apply pow2_below_max. exact Hk.
Qed.

(** Two slots of the ring at the same distance from the head are the same
    slot. *)
Lemma ring_slot_unique (L h i j : Z) :
  0 < L -> 0 <= j < L -> (j - h) mod L = (i - h) mod L -> j = i mod L.
Proof.
  intros HL Hj Heq.
  assert (Hmod : forall x, x mod L = ((x - h) mod L + h mod L) mod L).
  { intros x. rewrite <- Z.add_mod by lia. f_equal. lia. }
  rewrite (Hmod i), <- Heq, <- Hmod. symmetry. apply Z.mod_small. exact Hj.
Qed.

(** The fast path of push, as a state transformer. *)
Lemma deque_push_fast (uninit : nat -> ABT_unit) (m : data_t) (item : ABT_unit) :
  0 <= tail_idx m < SIZE_MAX ->
  tail_idx m < size_t (head_idx m + mask m) ->
  0 <= mask m < Z.of_nat (length (unit_array m)) ->
  deque_push uninit item m =
    Returns tt (Data (<[Z.to_nat (Z.land (tail_idx m) (mask m)) := item]> (unit_array m))
                     (array_length m) (mask m) (head_idx m) (tail_idx m + 1)
                     (foreign_lock m)).
Proof.
  intros Ht Hfast Hm. unfold deque_push, bind.
  rewrite wrap_guard_below_max by lia. unfold get.
  destruct (Z.ltb_spec (tail_idx m) (size_t (head_idx m + mask m))); [| lia].
  apply push_fast_spec; assumption.
Qed.

(** On a state that satisfies the invariants the fast-path test says that
    at least two slots are free. *)
Lemma inv_fast_path_room (m : data_t) :
  deque_inv m ->
  tail_idx m < size_t (head_idx m + mask m) ->
  tail_idx m - head_idx m < mask m.
Proof.
  intros Hinv Hfast. pose proof (inv_length_bounds m Hinv) as HL.
  destruct Hinv as [Hh Ht _ Hmask _ Hcount _ _].
  unfold size_t, SIZE_MAX in *.
  destruct (Z_lt_le_dec (head_idx m + mask m) (2 ^ 64)) as [Hsmall | Hbig].
  - rewrite Z.mod_small in Hfast by lia. lia.
  - replace (head_idx m + mask m) with (head_idx m + mask m - 2 ^ 64 + 1 * 2 ^ 64) in Hfast by lia.
    rewrite Z.mod_add in Hfast by lia. rewrite Z.mod_small in Hfast by lia. lia.
Qed.

(** Under the invariants the slot that the next push will write holds
    NULL. *)
Lemma inv_next_slot_null (m : data_t) :
  deque_inv m ->
  tail_idx m - head_idx m < array_length m ->
  unit_array m !! Z.to_nat (Z.land (tail_idx m) (mask m)) = Some ABT_UNIT_NULL.
Proof.
  intros Hinv Hroom.
  pose proof (inv_length_bounds m Hinv) as HL.
  rewrite (inv_land m _ Hinv).
  pose proof Hinv as [Hh Ht Hpow Hmask Halloc Hcount Hnull Hfree].
  pose proof (Z.mod_pos_bound (tail_idx m) (array_length m) ltac:(lia)) as Hidx.
  apply (proj1 (slots_outside_null_spec m) Hnull); [lia |].
  unfold live. apply Z.ltb_ge. rewrite Z2Nat.id by lia.
  replace (mask m + 1) with (array_length m) by lia.
  rewrite Zminus_mod_idemp_l. rewrite Z.mod_small by lia. lia.
Qed.

(** ** The deque after one operation, and its contents *)

Lemma nth_insert_ne (l : list ABT_unit) (i j : nat) (x : ABT_unit) :
  i <> j -> nth j (<[i := x]> l) ABT_UNIT_NULL = nth j l ABT_UNIT_NULL.
Proof.
  intros Hne. rewrite !nth_lookup. rewrite list_lookup_insert_ne by exact Hne.
  reflexivity.
Qed.

Lemma nth_insert_eq (l : list ABT_unit) (i : nat) (x : ABT_unit) :
  (i < length l)%nat -> nth i (<[i := x]> l) ABT_UNIT_NULL = x.
Proof.
  intros Hlt. rewrite nth_lookup, list_lookup_insert_eq by exact Hlt. reflexivity.
Qed.

(** Two indices less than [L] apart fall into different slots. *)
Lemma ring_slots_differ (L i j : Z) :
  0 < L -> i < j < i + L -> Z.to_nat (i mod L) <> Z.to_nat (j mod L).
Proof.
  intros HL Hij Heq.
  pose proof (Z.mod_pos_bound i L HL). pose proof (Z.mod_pos_bound j L HL).
  assert (Hmod : i mod L = j mod L) by lia.
  pose proof (Z.div_mod i L ltac:(lia)). pose proof (Z.div_mod j L ltac:(lia)).
  assert (Hq : L * (j / L - i / L) = j - i) by lia.
  assert (j / L - i / L = 0 \/ j / L - i / L >= 1 \/ j / L - i / L <= -1) as [Hz | [Hz | Hz]] by lia;
    nia.
Qed.

(** The deque after a push on the fast path, a steal, a local pop: the
    invariants hold again. *)
Lemma push_fast_inv (m : data_t) (item : ABT_unit) :
  deque_inv m ->
  tail_idx m < SIZE_MAX ->
  tail_idx m - head_idx m < mask m ->
  deque_inv (Data (<[Z.to_nat (tail_idx m mod array_length m) := item]> (unit_array m))
                  (array_length m) (mask m) (head_idx m) (tail_idx m + 1)
                  (foreign_lock m)).
Proof.
  intros Hinv Hmax Hroom.
  pose proof (inv_length_bounds m Hinv) as HL.
  pose proof Hinv as [Hh Ht Hpow Hmask Halloc Hcount Hnull Hfree].
  pose proof (Z.mod_pos_bound (tail_idx m) (array_length m) ltac:(lia)) as Hidx.
  constructor; cbn [head_idx tail_idx mask array_length unit_array foreign_lock];
    try assumption; try lia.
  - rewrite length_insert. exact Halloc.
  - apply slots_outside_null_spec.
    cbn [unit_array]. rewrite length_insert.
    intros j Hj Hdead. unfold live in Hdead.
    cbn [head_idx tail_idx mask] in Hdead.
    apply Z.ltb_ge in Hdead.
    assert (Hne : Z.of_nat j <> tail_idx m mod array_length m).
    { intros Heq. rewrite Heq in Hdead.
      replace (mask m + 1) with (array_length m) in Hdead by lia.
      rewrite Zminus_mod_idemp_l in Hdead.
      rewrite Z.mod_small in Hdead by lia. lia. }
    rewrite list_lookup_insert_ne by lia.
    apply (proj1 (slots_outside_null_spec m) Hnull j Hj).
    unfold live. apply Z.ltb_ge. lia.
Qed.

Lemma contents_length (m : data_t) :
  length (contents m) = Z.to_nat (tail_idx m - head_idx m).
Proof. unfold contents. rewrite length_map, length_seq. reflexivity. Qed.

Lemma contents_after_push (m : data_t) (item : ABT_unit) :
  deque_inv m ->
  tail_idx m - head_idx m < mask m ->
  contents (Data (<[Z.to_nat (tail_idx m mod array_length m) := item]> (unit_array m))
                 (array_length m) (mask m) (head_idx m) (tail_idx m + 1)
                 (foreign_lock m))
  = contents m ++ [item].
Proof.
  intros Hinv Hroom.
  pose proof (inv_length_bounds m Hinv) as HL.
  pose proof Hinv as [Hh Ht Hpow Hmask Halloc Hcount Hnull Hfree].
  pose proof (Z.mod_pos_bound (tail_idx m) (array_length m) ltac:(lia)) as Hidx.
  unfold contents. cbn [head_idx tail_idx mask unit_array].
  replace (Z.to_nat (tail_idx m + 1 - head_idx m))
    with (Z.to_nat (tail_idx m - head_idx m) + 1)%nat by lia.
  rewrite seq_app, map_app. cbn [seq map]. f_equal.
  - apply map_ext_in. intros i Hi. apply in_seq in Hi.
    rewrite (inv_land m _ Hinv). apply nth_insert_ne.
    apply not_eq_sym. apply ring_slots_differ; lia.
  - f_equal. rewrite (inv_land m _ Hinv).
    replace (head_idx m + Z.of_nat (0 + Z.to_nat (tail_idx m - head_idx m)))
      with (tail_idx m) by lia.
    apply nth_insert_eq. lia.
Qed.

Lemma steal_inv (m : data_t) :
  deque_inv m ->
  head_idx m < tail_idx m ->
  deque_inv (Data (<[Z.to_nat (head_idx m mod array_length m) := ABT_UNIT_NULL]> (unit_array m))
                  (array_length m) (mask m) (head_idx m + 1) (tail_idx m) Unlocked).
Proof.
  intros Hinv Hlive.
  pose proof (inv_length_bounds m Hinv) as HL.
  pose proof Hinv as [Hh Ht Hpow Hmask Halloc Hcount Hnull Hfree].
  pose proof (Z.mod_pos_bound (head_idx m) (array_length m) ltac:(lia)) as Hidx.
  constructor; cbn [head_idx tail_idx mask array_length unit_array foreign_lock];
    try assumption; try lia; try reflexivity.
  - rewrite length_insert. exact Halloc.
  - apply slots_outside_null_spec.
    cbn [unit_array]. rewrite length_insert.
    intros j Hj Hdead. unfold live in Hdead.
    cbn [head_idx tail_idx mask] in Hdead. apply Z.ltb_ge in Hdead.
    replace (mask m + 1) with (array_length m) in Hdead by lia.
    destruct (Z.eq_dec (Z.of_nat j) (head_idx m mod array_length m)) as [Heq | Hne].
    + rewrite <- Heq, Nat2Z.id. apply list_lookup_insert_eq. exact Hj.
    + rewrite list_lookup_insert_ne by lia.
      apply (proj1 (slots_outside_null_spec m) Hnull j Hj).
      unfold live. apply Z.ltb_ge.
      replace (mask m + 1) with (array_length m) by lia.
      pose proof (Z.mod_pos_bound (Z.of_nat j - head_idx m) (array_length m) ltac:(lia)) as Hr.
      assert (Hnz : (Z.of_nat j - head_idx m) mod array_length m <> 0).
      { intros Hz. apply Hne.
        apply (ring_slot_unique (array_length m) (head_idx m)); [lia | lia |].
        rewrite Hz, Z.sub_diag. symmetry. apply Z.mod_0_l. lia. }
      assert (Hshift : (Z.of_nat j - (head_idx m + 1)) mod array_length m
                       = (Z.of_nat j - head_idx m) mod array_length m - 1).
      { symmetry.
        apply (Z.mod_unique _ _ ((Z.of_nat j - head_idx m) / array_length m)); [lia |].
        pose proof (Z.div_mod (Z.of_nat j - head_idx m) (array_length m) ltac:(lia)).
        lia. }
      lia.
Qed.

Lemma contents_after_steal (m : data_t) :
  deque_inv m ->
  head_idx m < tail_idx m ->
  contents (Data (<[Z.to_nat (head_idx m mod array_length m) := ABT_UNIT_NULL]> (unit_array m))
                 (array_length m) (mask m) (head_idx m + 1) (tail_idx m) Unlocked)
  = tl (contents m).
Proof.
  intros Hinv Hlive.
  pose proof (inv_length_bounds m Hinv) as HL.
  pose proof Hinv as [Hh Ht Hpow Hmask Halloc Hcount Hnull Hfree].
  unfold contents. cbn [head_idx tail_idx mask unit_array].
  replace (Z.to_nat (tail_idx m - head_idx m))
    with (S (Z.to_nat (tail_idx m - (head_idx m + 1)))) by lia.
  cbn [seq map tl]. rewrite <- seq_shift, map_map.
  apply map_ext_in. intros i Hi. apply in_seq in Hi.
  rewrite !(inv_land m _ Hinv).
  replace (head_idx m + Z.of_nat (S i)) with (head_idx m + 1 + Z.of_nat i) by lia.
  apply nth_insert_ne. apply ring_slots_differ; lia.
Qed.

Lemma pop_inv (m : data_t) :
  deque_inv m ->
  head_idx m < tail_idx m ->
  deque_inv (Data (<[Z.to_nat ((tail_idx m - 1) mod array_length m) := ABT_UNIT_NULL]>
                     (unit_array m))
                  (array_length m) (mask m) (head_idx m) (tail_idx m - 1)
                  (foreign_lock m)).
Proof.
  intros Hinv Hlive.
  pose proof (inv_length_bounds m Hinv) as HL.
  pose proof Hinv as [Hh Ht Hpow Hmask Halloc Hcount Hnull Hfree].
  pose proof (Z.mod_pos_bound (tail_idx m - 1) (array_length m) ltac:(lia)) as Hidx.
  constructor; cbn [head_idx tail_idx mask array_length unit_array foreign_lock];
    try assumption; try lia.
  - rewrite length_insert. exact Halloc.
  - apply slots_outside_null_spec.
    cbn [unit_array]. rewrite length_insert.
    intros j Hj Hdead. unfold live in Hdead.
    cbn [head_idx tail_idx mask] in Hdead. apply Z.ltb_ge in Hdead.
    replace (mask m + 1) with (array_length m) in Hdead by lia.
    destruct (Z.eq_dec (Z.of_nat j) ((tail_idx m - 1) mod array_length m)) as [Heq | Hne].
    + rewrite <- Heq, Nat2Z.id. apply list_lookup_insert_eq. exact Hj.
    + rewrite list_lookup_insert_ne by lia.
      apply (proj1 (slots_outside_null_spec m) Hnull j Hj).
      unfold live. apply Z.ltb_ge.
      replace (mask m + 1) with (array_length m) by lia.
      pose proof (Z.mod_pos_bound (Z.of_nat j - head_idx m) (array_length m) ltac:(lia)).
      destruct (Z.eq_dec ((Z.of_nat j - head_idx m) mod array_length m)
                         (tail_idx m - 1 - head_idx m)) as [Hedge | Hin]; [| lia].
      exfalso. apply Hne.
      apply (ring_slot_unique (array_length m) (head_idx m)); [lia | lia |].
      rewrite Hedge. symmetry. apply Z.mod_small. lia.
Qed.

Lemma contents_after_pop (m : data_t) :
  deque_inv m ->
  head_idx m < tail_idx m ->
  contents (Data (<[Z.to_nat ((tail_idx m - 1) mod array_length m) := ABT_UNIT_NULL]>
                    (unit_array m))
                 (array_length m) (mask m) (head_idx m) (tail_idx m - 1)
                 (foreign_lock m))
  = removelast (contents m).
Proof.
  intros Hinv Hlive.
  pose proof (inv_length_bounds m Hinv) as HL.
  pose proof Hinv as [Hh Ht Hpow Hmask Halloc Hcount Hnull Hfree].
  unfold contents. cbn [head_idx tail_idx mask unit_array].
  replace (Z.to_nat (tail_idx m - head_idx m))
    with (Z.to_nat (tail_idx m - 1 - head_idx m) + 1)%nat by lia.
  rewrite seq_app, map_app. cbn [seq map]. rewrite removelast_last.
  apply map_ext_in. intros i Hi. apply in_seq in Hi.
  rewrite (inv_land m _ Hinv). apply nth_insert_ne.
  apply not_eq_sym. apply ring_slots_differ; lia.
Qed.

(** The first and the last item of the contents are what the head slot and
    the top slot hold. *)
Lemma contents_head (m : data_t) (x : ABT_unit) (rest : list ABT_unit) :
  deque_inv m -> contents m = x :: rest ->
  head_idx m < tail_idx m /\
  unit_array m !! Z.to_nat (head_idx m mod array_length m) = Some x.
Proof.
  intros Hinv Hc.
  pose proof (inv_length_bounds m Hinv) as HL.
  pose proof Hinv as [Hh Ht Hpow Hmask Halloc Hcount Hnull Hfree].
  pose proof (Z.mod_pos_bound (head_idx m) (array_length m) ltac:(lia)) as Hidx.
  assert (Hlive : head_idx m < tail_idx m).
  { pose proof (contents_length m) as Hl. rewrite Hc in Hl. cbn [length] in Hl. lia. }
  split; [exact Hlive |].
  unfold contents in Hc.
  replace (Z.to_nat (tail_idx m - head_idx m))
    with (S (Z.to_nat (tail_idx m - head_idx m - 1))) in Hc by lia.
  cbn [seq map] in Hc. injection Hc as Hx _.
  rewrite Z.add_0_r, (inv_land m _ Hinv) in Hx.
  destruct (nth_lookup_or_length (unit_array m)
              (Z.to_nat (head_idx m mod array_length m)) ABT_UNIT_NULL) as [Hs | Hlen];
    [| lia].
  rewrite Hs, Hx. reflexivity.
Qed.

Lemma contents_last (m : data_t) (x : ABT_unit) (init : list ABT_unit) :
  deque_inv m -> contents m = init ++ [x] ->
  head_idx m < tail_idx m /\
  unit_array m !! Z.to_nat ((tail_idx m - 1) mod array_length m) = Some x.
Proof.
  intros Hinv Hc.
  pose proof (inv_length_bounds m Hinv) as HL.
  pose proof Hinv as [Hh Ht Hpow Hmask Halloc Hcount Hnull Hfree].
  pose proof (Z.mod_pos_bound (tail_idx m - 1) (array_length m) ltac:(lia)) as Hidx.
  assert (Hlive : head_idx m < tail_idx m).
  { pose proof (contents_length m) as Hl. rewrite Hc, length_app in Hl.
    cbn [length] in Hl. lia. }
  split; [exact Hlive |].
  unfold contents in Hc.
  replace (Z.to_nat (tail_idx m - head_idx m))
    with (Z.to_nat (tail_idx m - 1 - head_idx m) + 1)%nat in Hc by lia.
  rewrite seq_app, map_app in Hc. cbn [seq map] in Hc.
  apply app_inj_tail in Hc. destruct Hc as [_ Hx].
  replace (head_idx m + Z.of_nat (0 + Z.to_nat (tail_idx m - 1 - head_idx m)))
    with (tail_idx m - 1) in Hx by lia.
  rewrite (inv_land m _ Hinv) in Hx.
  destruct (nth_lookup_or_length (unit_array m)
              (Z.to_nat ((tail_idx m - 1) mod array_length m)) ABT_UNIT_NULL) as [Hs | Hlen];
    [| lia].
  rewrite Hs, Hx. reflexivity.
Qed.

(** The deque after the scan of remove has turned the slot of index [i]
    into a tombstone. *)
Lemma remove_inv (m : data_t) (i : Z) :
  deque_inv m ->
  head_idx m <= i -> i + 2 <= tail_idx m ->
  deque_inv (Data (<[Z.to_nat (Z.land i (mask m)) := ABT_UNIT_NULL]> (unit_array m))
                  (array_length m) (mask m)
                  (if i =? head_idx m then head_idx m + 1 else head_idx m)
                  (tail_idx m) Unlocked).
Proof.
  intros Hinv Hi Ht2.
  destruct (Z.eqb_spec i (head_idx m)) as [-> | Hne].
  - rewrite (inv_land m _ Hinv). apply steal_inv; [exact Hinv | lia].
  - pose proof (inv_length_bounds m Hinv) as HL.
    pose proof Hinv as [Hh Ht Hpow Hmask Halloc Hcount Hnull Hfree].
    rewrite (inv_land m _ Hinv).
    pose proof (Z.mod_pos_bound i (array_length m) ltac:(lia)) as Hidx.
    constructor; cbn [head_idx tail_idx mask array_length unit_array foreign_lock];
      try assumption; try lia; try reflexivity.
    + rewrite length_insert. exact Halloc.
    + apply slots_outside_null_spec.
      cbn [unit_array]. rewrite length_insert.
      intros j Hj Hdead.
      destruct (Z.eq_dec (Z.of_nat j) (i mod array_length m)) as [Heq | Hnj].
      * rewrite <- Heq, Nat2Z.id. apply list_lookup_insert_eq. exact Hj.
      * rewrite list_lookup_insert_ne by lia.
        apply (proj1 (slots_outside_null_spec m) Hnull j Hj). exact Hdead.
Qed.

Lemma inv_m_abcde : deque_inv m_abcde.
Proof.
  constructor; try (vm_compute; intuition discriminate).
  exists 8. split; [lia | run].
Qed.

Lemma inv_m255 : deque_inv m255.
Proof.
  constructor; try (vm_compute; intuition discriminate).
  exists 8. split; [lia | run].
Qed.

(** ** Creation *)

(** X1. Whatever the allocator leaves in the fresh block, [deque_init] gives
    an empty deque with H = T = 0, L = 256, mask 255 and a free lock, whose
    size is 0. It does not clear the slots: the invariants hold in the new
    deque exactly when the block happens to be filled with NULL. *)
Theorem deque_init_state (uninit : nat -> ABT_unit) :
  head_idx (deque_init uninit) = 0 /\
    tail_idx (deque_init uninit) = 0 /\
    array_length (deque_init uninit) = 256 /\
    mask (deque_init uninit) = 255 /\
    foreign_lock (deque_init uninit) = Unlocked /\
    unit_array (deque_init uninit) = map uninit (seq 0 256) /\
    deque_get_size (deque_init uninit) = Returns 0 (deque_init uninit) /\
    (deque_inv (deque_init uninit) <->
     forall i : nat, (i < 256)%nat -> uninit i = ABT_UNIT_NULL).
Proof.
  assert (Harr : unit_array (deque_init uninit) = map uninit (seq 0 256)) by reflexivity.
  do 5 (split; [reflexivity |]). split; [exact Harr |]. split; [reflexivity |].
  assert (Hlook : forall i : nat, (i < 256)%nat ->
                    unit_array (deque_init uninit) !! i = Some (uninit i)).
  { intros i Hi. rewrite Harr, list_lookup_fmap, lookup_seq_lt by exact Hi.
    reflexivity. }
  assert (Hlen : length (unit_array (deque_init uninit)) = 256%nat).
  { rewrite Harr, length_map, length_seq. reflexivity. }
  split.
  - intros [_ _ _ _ _ _ Hnull _] i Hi.
    pose proof (proj1 (slots_outside_null_spec _) Hnull i ltac:(lia)) as Hslot.
    rewrite Hlook in Hslot by exact Hi.
    assert (Hdead : live (deque_init uninit) (Z.of_nat i) = false).
    { unfold live. apply Z.ltb_ge. cbn [head_idx tail_idx mask deque_init].
      pose proof (Z.mod_pos_bound (Z.of_nat i - 0) (INITIAL_LENGTH - 1 + 1)
                    ltac:(unfold INITIAL_LENGTH; lia)). lia. }
    specialize (Hslot Hdead). congruence.
  - intros Hzero.
    constructor;
      try (cbn [head_idx tail_idx mask array_length deque_init];
           unfold SIZE_MAX, INITIAL_LENGTH; lia).
    + exists 8. split; [lia | reflexivity].
    + apply slots_outside_null_spec. intros j Hj _.
      rewrite Hlen in Hj. rewrite Hlook by exact Hj. f_equal. apply Hzero. exact Hj.
    + reflexivity.
Qed.

(** ** Push on the fast path *)

(** X2. A push that takes the fast path keeps the invariants: from a state
    that satisfies them it returns a state that satisfies them, with one more
    live item, the pushed item in slot [T mod L]. *)
Theorem push_fast_path_keeps_invariants (uninit : nat -> ABT_unit) (m : data_t) (item : ABT_unit) :
  deque_inv m ->
  tail_idx m < SIZE_MAX ->
  tail_idx m < size_t (head_idx m + mask m) ->
  exists m',
    deque_push uninit item m = Returns tt m' /\
    deque_inv m' /\
    tail_idx m' - head_idx m' = tail_idx m - head_idx m + 1 /\
    unit_array m' !! Z.to_nat (tail_idx m mod array_length m) = Some item.
Proof.
  intros Hinv Hmax Hfast.
  pose proof (inv_length_bounds m Hinv) as HL.
  pose proof (inv_fast_path_room m Hinv Hfast) as Hroom.
  pose proof (inv_land m (tail_idx m) Hinv) as Hland.
  pose proof Hinv as [Hh Ht Hpow Hmask Halloc Hcount Hnull Hfree].
  pose proof (Z.mod_pos_bound (tail_idx m) (array_length m) ltac:(lia)) as Hidx.
  eexists. split; [apply deque_push_fast; lia |].
  rewrite Hland. split; [apply push_fast_inv; assumption |].
  cbn [head_idx tail_idx unit_array]. split; [lia |].
  apply list_lookup_insert_eq. lia.
Qed.

(** A sixth item is pushed after A, B, C, D, E. *)
Lemma push_fast_path_keeps_invariants_witness :
  (deque_inv m_abcde /\
   tail_idx m_abcde < SIZE_MAX /\
   tail_idx m_abcde < size_t (head_idx m_abcde + mask m_abcde)) /\
  (exists m',
     deque_push zeroed 6 m_abcde = Returns tt m' /\
     deque_inv m' /\
     tail_idx m' - head_idx m' = tail_idx m_abcde - head_idx m_abcde + 1 /\
     unit_array m' !! Z.to_nat (tail_idx m_abcde mod array_length m_abcde) = Some 6).
Proof.
  assert (H1 : deque_inv m_abcde)
    by (exact inv_m_abcde).
  assert (H2 : tail_idx m_abcde < SIZE_MAX)
    by (settle).
  assert (H3 : tail_idx m_abcde < size_t (head_idx m_abcde + mask m_abcde))
    by (settle).
  split; [exact (conj H1 (conj H2 H3)) |].
  exact (push_fast_path_keeps_invariants zeroed m_abcde 6 H1 H2 H3).
Defined.

(** X3. Push on the fast path followed by local pop gives the item back and
    restores the state: head, tail, mask, lock and every slot are as before
    the push. *)
Theorem push_pop_round_trip (uninit : nat -> ABT_unit) (m : data_t) (item : ABT_unit) (fuel : nat) :
  deque_inv m ->
  tail_idx m < SIZE_MAX ->
  tail_idx m < size_t (head_idx m + mask m) ->
  item <> ABT_UNIT_NULL ->
  bind (deque_push uninit item) (fun _ => deque_pop_local (S fuel)) m
  = Returns item m.
Proof.
  intros Hinv Hmax Hfast Hitem.
  pose proof (inv_length_bounds m Hinv) as HL.
  pose proof (inv_fast_path_room m Hinv Hfast) as Hroom.
  pose proof (inv_next_slot_null m Hinv) as Hnext.
  pose proof Hinv as [Hh Ht Hpow Hmask Halloc Hcount Hnull Hfree].
  pose proof (land_bounds (tail_idx m) (mask m) ltac:(lia) ltac:(lia)) as Hb.
  unfold bind at 1. rewrite deque_push_fast by lia.
  rewrite pop_local_takes_top with (item := item);
    cbn [head_idx tail_idx mask array_length unit_array foreign_lock];
    try rewrite length_insert; try lia; try assumption.
  - replace (tail_idx m + 1 - 1) with (tail_idx m) by lia.
    rewrite list_insert_insert_eq.
    rewrite list_insert_id by (apply Hnext; lia).
    destruct m; reflexivity.
  - replace (tail_idx m + 1 - 1) with (tail_idx m) by lia.
    apply list_lookup_insert_eq. lia.
Qed.

(** Item 6 is pushed on A, B, C, D, E and popped again. *)
Lemma push_pop_round_trip_witness :
  (deque_inv m_abcde /\
   tail_idx m_abcde < SIZE_MAX /\
   tail_idx m_abcde < size_t (head_idx m_abcde + mask m_abcde) /\
   6 <> ABT_UNIT_NULL) /\
  (bind (deque_push zeroed 6) (fun _ => deque_pop_local (S 0%nat)) m_abcde
   = Returns 6 m_abcde).
Proof.
  assert (H1 : deque_inv m_abcde)
    by (exact inv_m_abcde).
  assert (H2 : tail_idx m_abcde < SIZE_MAX)
    by (settle).
  assert (H3 : tail_idx m_abcde < size_t (head_idx m_abcde + mask m_abcde))
    by (settle).
  assert (H4 : 6 <> ABT_UNIT_NULL)
    by (discriminate).
  split; [exact (conj H1 (conj H2 (conj H3 H4))) |].
  exact (push_pop_round_trip zeroed m_abcde 6 (0%nat) H1 H2 H3 H4).
Defined.

(** ** Local pop *)

(** X4. Local pop on a deque whose top slot holds an item returns that item,
    clears the slot, moves the tail down by one and keeps the invariants. *)
Theorem pop_local_keeps_invariants (m : data_t) (item : ABT_unit) (fuel : nat) :
  deque_inv m ->
  head_idx m < tail_idx m ->
  item <> ABT_UNIT_NULL ->
  unit_array m !! Z.to_nat ((tail_idx m - 1) mod array_length m) = Some item ->
  exists m',
    deque_pop_local (S fuel) m = Returns item m' /\
    deque_inv m' /\
    head_idx m' = head_idx m /\
    tail_idx m' = tail_idx m - 1 /\
    unit_array m'
      = <[Z.to_nat ((tail_idx m - 1) mod array_length m) := ABT_UNIT_NULL]> (unit_array m).
Proof.
  intros Hinv Hlive Hitem Hslot.
  pose proof (inv_length_bounds m Hinv) as HL.
  pose proof (inv_land m (tail_idx m - 1) Hinv) as Hland.
  pose proof Hinv as [Hh Ht Hpow Hmask Halloc Hcount Hnull Hfree].
  eexists. split.
  { apply pop_local_takes_top with (item := item); try lia; try assumption.
    rewrite Hland. exact Hslot. }
  rewrite Hland. split; [apply pop_inv; assumption |].
  split; [reflexivity |]. split; reflexivity.
Qed.

(** E is popped from A, B, C, D, E. *)
Lemma pop_local_keeps_invariants_witness :
  (deque_inv m_abcde /\
   head_idx m_abcde < tail_idx m_abcde /\
   5 <> ABT_UNIT_NULL /\
   unit_array m_abcde !! Z.to_nat ((tail_idx m_abcde - 1) mod array_length m_abcde) = Some 5) /\
  (exists m',
     deque_pop_local (S 0%nat) m_abcde = Returns 5 m' /\
     deque_inv m' /\
     head_idx m' = head_idx m_abcde /\
     tail_idx m' = tail_idx m_abcde - 1 /\
     unit_array m'
       = <[Z.to_nat ((tail_idx m_abcde - 1) mod array_length m_abcde) := ABT_UNIT_NULL]> (unit_array m_abcde)).
Proof.
  assert (H1 : deque_inv m_abcde)
    by (exact inv_m_abcde).
  assert (H2 : head_idx m_abcde < tail_idx m_abcde)
    by (settle).
  assert (H3 : 5 <> ABT_UNIT_NULL)
    by (discriminate).
  assert (H4 : unit_array m_abcde !! Z.to_nat ((tail_idx m_abcde - 1) mod array_length m_abcde) = Some 5)
    by (settle).
  split; [exact (conj H1 (conj H2 (conj H3 H4))) |].
  exact (pop_local_keeps_invariants m_abcde 5 (0%nat) H1 H2 H3 H4).
Defined.

Lemma pop_local_on_empty (m : data_t) (fuel : nat) :
  head_idx m >= tail_idx m ->
  deque_pop_local (S fuel) m = Returns ABT_UNIT_NULL m.
Proof.
  intros Hempty. cbn [deque_pop_local]. unfold bind, get, ret.
  destruct (Z.geb_spec (head_idx m) (tail_idx m)) as [_ | Hlt]; [reflexivity | lia].
Qed.

(** One turn of the loop of local pop over a tombstone: the tail has gone
    down by one and the loop goes on. *)
Lemma pop_local_skips_tombstone (m : data_t) (fuel : nat) :
  0 <= head_idx m < tail_idx m -> tail_idx m <= SIZE_MAX ->
  unit_array m !! Z.to_nat (Z.land (tail_idx m - 1) (mask m)) = Some ABT_UNIT_NULL ->
  deque_pop_local (S fuel) m =
    deque_pop_local fuel
      (Data (unit_array m) (array_length m) (mask m) (head_idx m)
            (tail_idx m - 1) (foreign_lock m)).
Proof.
  destruct m as [a len mk h t l]. simpl. intros Hh Ht Hslot.
  unfold_ops. simpl.
  destruct (Z.geb_spec h t) as [Hge | _]; [lia |]. simpl.
  rewrite (size_t_small (t - 1)) by lia.
  destruct (Z.leb_spec h (t - 1)) as [_ | Hgt]; [| lia]. simpl.
  rewrite Hslot. reflexivity.
Qed.

(** Local pop walks down over [k] tombstones. *)
Lemma pop_local_skips_tombstones (k : nat) :
  forall (m : data_t) (fuel : nat),
    0 <= head_idx m -> head_idx m + Z.of_nat k <= tail_idx m <= SIZE_MAX ->
    (forall i, tail_idx m - Z.of_nat k <= i < tail_idx m ->
               unit_array m !! Z.to_nat (Z.land i (mask m)) = Some ABT_UNIT_NULL) ->
    deque_pop_local (k + fuel) m =
      deque_pop_local fuel
        (Data (unit_array m) (array_length m) (mask m) (head_idx m)
              (tail_idx m - Z.of_nat k) (foreign_lock m)).
Proof.
  induction k as [| k IH]; intros m fuel Hh Ht Hnull.
  - simpl. rewrite Z.sub_0_r. destruct m; reflexivity.
  - cbn [Nat.add]. rewrite pop_local_skips_tombstone; [| lia | lia | apply Hnull; lia].
    rewrite IH; cbn [head_idx tail_idx mask array_length unit_array foreign_lock].
    + replace (tail_idx m - Z.of_nat (S k)) with (tail_idx m - 1 - Z.of_nat k) by lia.
      reflexivity.
    + lia.
    + lia.
    + intros i Hi. apply Hnull. lia.
Qed.

(** X5. Local pop skips the tombstones on top of the deque: with [k] NULL
    slots at the tail and an item below them, it returns that item, clears its
    slot and leaves the tail at the item's index. One unit of fuel per
    tombstone and one more suffice. *)
Theorem pop_local_returns_topmost_item (m : data_t) (item : ABT_unit) (k fuel : nat) :
  0 <= head_idx m ->
  head_idx m + Z.of_nat k < tail_idx m ->
  tail_idx m <= SIZE_MAX ->
  0 <= mask m < Z.of_nat (length (unit_array m)) ->
  (forall i, tail_idx m - Z.of_nat k <= i < tail_idx m ->
             unit_array m !! Z.to_nat (Z.land i (mask m)) = Some ABT_UNIT_NULL) ->
  item <> ABT_UNIT_NULL ->
  unit_array m !! Z.to_nat (Z.land (tail_idx m - Z.of_nat k - 1) (mask m)) = Some item ->
  deque_pop_local (k + S fuel) m =
    Returns item
      (Data (<[Z.to_nat (Z.land (tail_idx m - Z.of_nat k - 1) (mask m)) := ABT_UNIT_NULL]>
               (unit_array m))
            (array_length m) (mask m) (head_idx m)
            (tail_idx m - Z.of_nat k - 1) (foreign_lock m)).
Proof.
  intros Hh Hk Ht Hm Hnull Hitem Hslot.
  rewrite pop_local_skips_tombstones by (try assumption; lia).
  apply pop_local_takes_top;
    cbn [head_idx tail_idx mask array_length unit_array foreign_lock];
    try assumption; lia.
Qed.

(** A, B and the tombstone of C: the pop returns B. *)
Lemma pop_local_returns_topmost_item_witness :
  (0 <= head_idx m_ab_tomb /\
   head_idx m_ab_tomb + Z.of_nat 1%nat < tail_idx m_ab_tomb /\
   tail_idx m_ab_tomb <= SIZE_MAX /\
   0 <= mask m_ab_tomb < Z.of_nat (length (unit_array m_ab_tomb)) /\
   ((forall i, tail_idx m_ab_tomb - Z.of_nat 1%nat <= i < tail_idx m_ab_tomb ->
             unit_array m_ab_tomb !! Z.to_nat (Z.land i (mask m_ab_tomb)) = Some ABT_UNIT_NULL)) /\
   2 <> ABT_UNIT_NULL /\
   unit_array m_ab_tomb !! Z.to_nat (Z.land (tail_idx m_ab_tomb - Z.of_nat 1%nat - 1) (mask m_ab_tomb)) = Some 2) /\
  (deque_pop_local (1%nat + S 0%nat) m_ab_tomb =
     Returns 2
       (Data (<[Z.to_nat (Z.land (tail_idx m_ab_tomb - Z.of_nat 1%nat - 1) (mask m_ab_tomb)) := ABT_UNIT_NULL]>
                (unit_array m_ab_tomb))
             (array_length m_ab_tomb) (mask m_ab_tomb) (head_idx m_ab_tomb)
             (tail_idx m_ab_tomb - Z.of_nat 1%nat - 1) (foreign_lock m_ab_tomb))).
Proof.
  assert (H1 : 0 <= head_idx m_ab_tomb)
    by (settle).
  assert (H2 : head_idx m_ab_tomb + Z.of_nat 1%nat < tail_idx m_ab_tomb)
    by (settle).
  assert (H3 : tail_idx m_ab_tomb <= SIZE_MAX)
    by (settle).
  assert (H4 : 0 <= mask m_ab_tomb < Z.of_nat (length (unit_array m_ab_tomb)))
    by (settle).
  assert (H5 : (forall i, tail_idx m_ab_tomb - Z.of_nat 1%nat <= i < tail_idx m_ab_tomb ->
             unit_array m_ab_tomb !! Z.to_nat (Z.land i (mask m_ab_tomb)) = Some ABT_UNIT_NULL))
    by (intros i Hi; assert (Ht : tail_idx m_ab_tomb = 3) by (vm_compute; reflexivity); rewrite Ht in Hi; assert (i = 2) as -> by lia; settle).
  assert (H6 : 2 <> ABT_UNIT_NULL)
    by (discriminate).
  assert (H7 : unit_array m_ab_tomb !! Z.to_nat (Z.land (tail_idx m_ab_tomb - Z.of_nat 1%nat - 1) (mask m_ab_tomb)) = Some 2)
    by (settle).
  split; [exact (conj H1 (conj H2 (conj H3 (conj H4 (conj H5 (conj H6 H7)))))) |].
  exact (pop_local_returns_topmost_item m_ab_tomb 2 (1%nat) (0%nat) H1 H2 H3 H4 H5 H6 H7).
Defined.

(** X6. Local pop on a live range that holds nothing but tombstones returns
    NULL and leaves the deque empty, T = H, with the slots untouched. *)
Theorem pop_local_drains_tombstones (m : data_t) (k fuel : nat) :
  0 <= head_idx m ->
  tail_idx m = head_idx m + Z.of_nat k ->
  tail_idx m <= SIZE_MAX ->
  (forall i, head_idx m <= i < tail_idx m ->
             unit_array m !! Z.to_nat (Z.land i (mask m)) = Some ABT_UNIT_NULL) ->
  deque_pop_local (k + S fuel) m =
    Returns ABT_UNIT_NULL
      (Data (unit_array m) (array_length m) (mask m) (head_idx m)
            (head_idx m) (foreign_lock m)).
Proof.
  intros Hh Hk Ht Hnull.
  rewrite pop_local_skips_tombstones by (try lia; intros i Hi; apply Hnull; lia).
  rewrite pop_local_on_empty by (simpl; lia).
  cbn [tail_idx]. replace (tail_idx m - Z.of_nat k) with (head_idx m) by lia.
  reflexivity.
Qed.

(** Three tombstones in [2, 5). *)
Lemma pop_local_drains_tombstones_witness :
  (0 <= head_idx three_tombstones /\
   tail_idx three_tombstones = head_idx three_tombstones + Z.of_nat 3%nat /\
   tail_idx three_tombstones <= SIZE_MAX /\
   ((forall i, head_idx three_tombstones <= i < tail_idx three_tombstones ->
             unit_array three_tombstones !! Z.to_nat (Z.land i (mask three_tombstones)) = Some ABT_UNIT_NULL))) /\
  (deque_pop_local (3%nat + S 0%nat) three_tombstones =
     Returns ABT_UNIT_NULL
       (Data (unit_array three_tombstones) (array_length three_tombstones) (mask three_tombstones) (head_idx three_tombstones)
             (head_idx three_tombstones) (foreign_lock three_tombstones))).
Proof.
  assert (H1 : 0 <= head_idx three_tombstones)
    by (settle).
  assert (H2 : tail_idx three_tombstones = head_idx three_tombstones + Z.of_nat 3%nat)
    by (settle).
  assert (H3 : tail_idx three_tombstones <= SIZE_MAX)
    by (settle).
  assert (H4 : (forall i, head_idx three_tombstones <= i < tail_idx three_tombstones ->
             unit_array three_tombstones !! Z.to_nat (Z.land i (mask three_tombstones)) = Some ABT_UNIT_NULL))
    by (intros i Hi; cbn [three_tombstones head_idx tail_idx] in Hi; assert (i = 2 \/ i = 3 \/ i = 4) as [-> | [-> | ->]] by lia; settle).
  split; [exact (conj H1 (conj H2 (conj H3 H4))) |].
  exact (pop_local_drains_tombstones three_tombstones (3%nat) (0%nat) H1 H2 H3 H4).
Defined.

(** X7. Local pop always returns when no steal interleaves, within one turn of
    its loop per live slot and one more, and it never asks for the foreign
    lock: the result is the same when the lock is held. The head is not moved
    and the tail does not go up. *)
Theorem pop_local_returns_without_lock (n : nat) (m : data_t) :
  0 <= head_idx m ->
  tail_idx m <= SIZE_MAX ->
  tail_idx m - head_idx m <= Z.of_nat n ->
  0 <= mask m < Z.of_nat (length (unit_array m)) ->
  exists r m',
    deque_pop_local (S n) m = Returns r m' /\
    head_idx m' = head_idx m /\
    tail_idx m' <= Z.max (head_idx m) (tail_idx m) /\
    foreign_lock m' = foreign_lock m.
Proof.
  revert m.
  induction n as [| n IH]; intros m Hh Ht Hn Hm.
  - exists ABT_UNIT_NULL, m. rewrite pop_local_on_empty by lia.
    split; [reflexivity |]. split; [reflexivity |]. split; [lia | reflexivity].
  - destruct (Z_le_gt_dec (tail_idx m) (head_idx m)) as [Hempty | Hlive].
    + exists ABT_UNIT_NULL, m. rewrite pop_local_on_empty by lia.
      split; [reflexivity |]. split; [reflexivity |]. split; [lia | reflexivity].
    + pose proof (slot_in_block m (tail_idx m - 1) ltac:(lia) Hm) as Hin.
      destruct (lookup_lt_is_Some_2 _ _ Hin) as [u Hu].
      destruct (Z.eq_dec u ABT_UNIT_NULL) as [-> | Hitem].
      * rewrite pop_local_skips_tombstone by (assumption || lia).
        destruct (IH (Data (unit_array m) (array_length m) (mask m) (head_idx m)
                           (tail_idx m - 1) (foreign_lock m)))
          as [r [m' [Hrun [Hh' [Ht' Hl']]]]];
          cbn [head_idx tail_idx mask unit_array foreign_lock] in *; try lia.
        exists r, m'. split; [exact Hrun |]. split; [exact Hh' |].
        split; [lia | exact Hl'].
      * eexists. eexists. split.
        { apply pop_local_takes_top with (item := u); assumption || lia. }
        cbn [head_idx tail_idx foreign_lock].
        split; [reflexivity |]. split; [lia | reflexivity].
Qed.

(** A, B and a tombstone on top, while a thief holds the lock. *)
Lemma pop_local_returns_without_lock_witness :
  (0 <= head_idx m_lock_held_tomb /\
   tail_idx m_lock_held_tomb <= SIZE_MAX /\
   tail_idx m_lock_held_tomb - head_idx m_lock_held_tomb <= Z.of_nat 3%nat /\
   0 <= mask m_lock_held_tomb < Z.of_nat (length (unit_array m_lock_held_tomb))) /\
  (exists r m',
     deque_pop_local (S 3%nat) m_lock_held_tomb = Returns r m' /\
     head_idx m' = head_idx m_lock_held_tomb /\
     tail_idx m' <= Z.max (head_idx m_lock_held_tomb) (tail_idx m_lock_held_tomb) /\
     foreign_lock m' = foreign_lock m_lock_held_tomb).
Proof.
  assert (H1 : 0 <= head_idx m_lock_held_tomb)
    by (settle).
  assert (H2 : tail_idx m_lock_held_tomb <= SIZE_MAX)
    by (settle).
  assert (H3 : tail_idx m_lock_held_tomb - head_idx m_lock_held_tomb <= Z.of_nat 3%nat)
    by (settle).
  assert (H4 : 0 <= mask m_lock_held_tomb < Z.of_nat (length (unit_array m_lock_held_tomb)))
    by (settle).
  split; [exact (conj H1 (conj H2 (conj H3 H4))) |].
  exact (pop_local_returns_without_lock (3%nat) m_lock_held_tomb H1 H2 H3 H4).
Defined.

(** ** Steal *)

(** A steal on a deque whose head slot holds an item, as a state
    transformer. *)
Lemma steal_takes_head (m : data_t) (item : ABT_unit) (fuel : nat) :
  0 <= head_idx m < tail_idx m -> tail_idx m <= SIZE_MAX ->
  foreign_lock m = Unlocked ->
  0 <= mask m < Z.of_nat (length (unit_array m)) ->
  item <> ABT_UNIT_NULL ->
  unit_array m !! Z.to_nat (Z.land (head_idx m) (mask m)) = Some item ->
  deque_pop_steal (S fuel) m =
    Returns item
      (Data (<[Z.to_nat (Z.land (head_idx m) (mask m)) := ABT_UNIT_NULL]> (unit_array m))
            (array_length m) (mask m) (head_idx m + 1) (tail_idx m) Unlocked).
Proof.
  destruct m as [a len mk h t l]. simpl. intros Hh Ht -> Hm Hitem Hslot.
  unfold_ops. simpl.
  destruct (Z.geb_spec h t) as [Hge | _]; [lia |]. simpl.
  destruct (Z.ltb_spec h t) as [_ | Hge]; [| lia]. simpl.
  rewrite Hslot.
  destruct (Z.eqb_spec item ABT_UNIT_NULL) as [Heq | _]; [contradiction |]. simpl.
  rewrite bool_decide_eq_true_2
    by (pose proof (land_bounds h mk ltac:(lia) ltac:(lia)); lia).
  simpl. rewrite size_t_small by lia. reflexivity.
Qed.

(** X8. A steal on a deque whose head slot holds an item returns that item,
    clears the slot, moves the head up by one, releases the foreign lock and
    keeps the invariants. *)
Theorem steal_keeps_invariants (m : data_t) (item : ABT_unit) (fuel : nat) :
  deque_inv m ->
  head_idx m < tail_idx m ->
  item <> ABT_UNIT_NULL ->
  unit_array m !! Z.to_nat (head_idx m mod array_length m) = Some item ->
  exists m',
    deque_pop_steal (S fuel) m = Returns item m' /\
    deque_inv m' /\
    head_idx m' = head_idx m + 1 /\
    tail_idx m' = tail_idx m /\
    unit_array m'
      = <[Z.to_nat (head_idx m mod array_length m) := ABT_UNIT_NULL]> (unit_array m).
Proof.
  intros Hinv Hlive Hitem Hslot.
  pose proof (inv_length_bounds m Hinv) as HL.
  pose proof (inv_land m (head_idx m) Hinv) as Hland.
  pose proof Hinv as [Hh Ht Hpow Hmask Halloc Hcount Hnull Hfree].
  eexists. split.
  { apply steal_takes_head with (item := item); try lia; try assumption.
    rewrite Hland. exact Hslot. }
  rewrite Hland. split; [apply steal_inv; assumption |].
  split; [reflexivity |]. split; reflexivity.
Qed.

(** A is stolen from A, B, C, D, E. *)
Lemma steal_keeps_invariants_witness :
  (deque_inv m_abcde /\
   head_idx m_abcde < tail_idx m_abcde /\
   1 <> ABT_UNIT_NULL /\
   unit_array m_abcde !! Z.to_nat (head_idx m_abcde mod array_length m_abcde) = Some 1) /\
  (exists m',
     deque_pop_steal (S 0%nat) m_abcde = Returns 1 m' /\
     deque_inv m' /\
     head_idx m' = head_idx m_abcde + 1 /\
     tail_idx m' = tail_idx m_abcde /\
     unit_array m'
       = <[Z.to_nat (head_idx m_abcde mod array_length m_abcde) := ABT_UNIT_NULL]> (unit_array m_abcde)).
Proof.
  assert (H1 : deque_inv m_abcde)
    by (exact inv_m_abcde).
  assert (H2 : head_idx m_abcde < tail_idx m_abcde)
    by (settle).
  assert (H3 : 1 <> ABT_UNIT_NULL)
    by (discriminate).
  assert (H4 : unit_array m_abcde !! Z.to_nat (head_idx m_abcde mod array_length m_abcde) = Some 1)
    by (settle).
  split; [exact (conj H1 (conj H2 (conj H3 H4))) |].
  exact (steal_keeps_invariants m_abcde 1 (0%nat) H1 H2 H3 H4).
Defined.

Lemma pop_steal_on_empty (m : data_t) (fuel : nat) :
  head_idx m >= tail_idx m ->
  deque_pop_steal (S fuel) m = Returns ABT_UNIT_NULL m.
Proof.
  intros Hempty. cbn [deque_pop_steal]. unfold bind, get, ret.
  destruct (Z.geb_spec (head_idx m) (tail_idx m)) as [_ | Hlt]; [reflexivity | lia].
Qed.

(** X9. When the only live slot is a tombstone, a steal returns NULL through
    the [continue] of line 183 and the emptiness test of line 167: the deque
    is empty afterwards and the foreign lock is still held. An item pushed
    after that cannot be stolen: the steal waits for the lock for ever. *)
Theorem steal_of_last_tombstone_keeps_lock (uninit : nat -> ABT_unit) (m : data_t) (item : ABT_unit) (fuel fuel' : nat) :
  0 <= head_idx m ->
  tail_idx m = head_idx m + 1 ->
  tail_idx m + mask m <= SIZE_MAX ->
  0 < mask m < Z.of_nat (length (unit_array m)) ->
  foreign_lock m = Unlocked ->
  unit_array m !! Z.to_nat (Z.land (head_idx m) (mask m)) = Some ABT_UNIT_NULL ->
  exists m',
    deque_pop_steal (S (S fuel)) m = Returns ABT_UNIT_NULL m' /\
    foreign_lock m' = Locked /\
    head_idx m' = tail_idx m /\
    tail_idx m' = tail_idx m /\
    unit_array m' = unit_array m /\
    exists m'',
      deque_push uninit item m' = Returns tt m'' /\
      head_idx m'' < tail_idx m'' /\
      deque_pop_steal (S fuel') m'' = Spins m''.
Proof.
  intros Hh Ht Hmax Hm Hfree Hslot.
  eexists. split.
  - rewrite steal_skips_tombstone by (assumption || lia).
    rewrite size_t_small by lia.
    apply pop_steal_on_empty. simpl. lia.
  - cbn [head_idx tail_idx unit_array foreign_lock].
    split; [reflexivity |]. split; [lia |]. split; [reflexivity |].
    split; [reflexivity |].
    eexists. split.
    + apply deque_push_fast; cbn [head_idx tail_idx unit_array mask]; try lia.
      rewrite size_t_small by lia. lia.
    + cbn [head_idx tail_idx]. split; [lia |].
      apply steal_waits_when_locked; [simpl; lia | reflexivity].
Qed.

(** One tombstone at index 2 is all that is left. *)
Lemma steal_of_last_tombstone_keeps_lock_witness :
  (0 <= head_idx last_tombstone /\
   tail_idx last_tombstone = head_idx last_tombstone + 1 /\
   tail_idx last_tombstone + mask last_tombstone <= SIZE_MAX /\
   0 < mask last_tombstone < Z.of_nat (length (unit_array last_tombstone)) /\
   foreign_lock last_tombstone = Unlocked /\
   unit_array last_tombstone !! Z.to_nat (Z.land (head_idx last_tombstone) (mask last_tombstone)) = Some ABT_UNIT_NULL) /\
  (exists m',
     deque_pop_steal (S (S 0%nat)) last_tombstone = Returns ABT_UNIT_NULL m' /\
     foreign_lock m' = Locked /\
     head_idx m' = tail_idx last_tombstone /\
     tail_idx m' = tail_idx last_tombstone /\
     unit_array m' = unit_array last_tombstone /\
     exists m'',
       deque_push zeroed 7 m' = Returns tt m'' /\
       head_idx m'' < tail_idx m'' /\
       deque_pop_steal (S 0%nat) m'' = Spins m'').
Proof.
  assert (H1 : 0 <= head_idx last_tombstone)
    by (settle).
  assert (H2 : tail_idx last_tombstone = head_idx last_tombstone + 1)
    by (settle).
  assert (H3 : tail_idx last_tombstone + mask last_tombstone <= SIZE_MAX)
    by (settle).
  assert (H4 : 0 < mask last_tombstone < Z.of_nat (length (unit_array last_tombstone)))
    by (settle).
  assert (H5 : foreign_lock last_tombstone = Unlocked)
    by (settle).
  assert (H6 : unit_array last_tombstone !! Z.to_nat (Z.land (head_idx last_tombstone) (mask last_tombstone)) = Some ABT_UNIT_NULL)
    by (settle).
  split; [exact (conj H1 (conj H2 (conj H3 (conj H4 (conj H5 H6))))) |].
  exact (steal_of_last_tombstone_keeps_lock zeroed last_tombstone 7 (0%nat) (0%nat) H1 H2 H3 H4 H5 H6).
Defined.

(** ** Remove *)

(** Remove of the item in the top slot goes through local pop. *)
Lemma remove_at_tail (m : data_t) (item : ABT_unit) (fuel : nat) :
  0 <= head_idx m < tail_idx m -> tail_idx m <= SIZE_MAX ->
  0 <= mask m < Z.of_nat (length (unit_array m)) ->
  item <> ABT_UNIT_NULL ->
  unit_array m !! Z.to_nat (Z.land (tail_idx m - 1) (mask m)) = Some item ->
  deque_remove (S fuel) item m =
    Returns ABT_SUCCESS
      (Data (<[Z.to_nat (Z.land (tail_idx m - 1) (mask m)) := ABT_UNIT_NULL]> (unit_array m))
            (array_length m) (mask m) (head_idx m) (tail_idx m - 1) (foreign_lock m)).
Proof.
  intros Hh Ht Hm Hitem Hslot.
  pose proof (pop_local_takes_top m item fuel Hh Ht Hm Hitem Hslot) as Hpop.
  unfold deque_remove. unfold bind at 1 2 3. unfold get, load.
  rewrite (size_t_small (tail_idx m - 1)) by lia.
  rewrite Hslot, Z.eqb_refl.
  unfold bind. rewrite Hpop. unfold ret.
  destruct (Z.eqb_spec item ABT_UNIT_NULL) as [Heq | _]; [contradiction | reflexivity].
Qed.

(** X10. Remove of the item that sits in the top slot succeeds and leaves the
    state that a local pop leaves: the slot is cleared and the tail is one
    lower. The foreign lock is not needed. *)
Theorem remove_at_tail_is_pop (m : data_t) (item : ABT_unit) (fuel : nat) :
  0 <= head_idx m < tail_idx m ->
  tail_idx m <= SIZE_MAX ->
  0 <= mask m < Z.of_nat (length (unit_array m)) ->
  item <> ABT_UNIT_NULL ->
  unit_array m !! Z.to_nat (Z.land (tail_idx m - 1) (mask m)) = Some item ->
  exists m',
    deque_remove (S fuel) item m = Returns ABT_SUCCESS m' /\
    deque_pop_local (S fuel) m = Returns item m' /\
    tail_idx m' = tail_idx m - 1 /\
    head_idx m' = head_idx m /\
    foreign_lock m' = foreign_lock m /\
    unit_array m'
      = <[Z.to_nat (Z.land (tail_idx m - 1) (mask m)) := ABT_UNIT_NULL]> (unit_array m).
Proof.
  intros Hh Ht Hm Hitem Hslot.
  eexists. split; [apply remove_at_tail; assumption |].
  split; [apply pop_local_takes_top; assumption |].
  repeat split.
Qed.

(** E is removed from A, B, C, D, E. *)
Lemma remove_at_tail_is_pop_witness :
  (0 <= head_idx m_abcde < tail_idx m_abcde /\
   tail_idx m_abcde <= SIZE_MAX /\
   0 <= mask m_abcde < Z.of_nat (length (unit_array m_abcde)) /\
   5 <> ABT_UNIT_NULL /\
   unit_array m_abcde !! Z.to_nat (Z.land (tail_idx m_abcde - 1) (mask m_abcde)) = Some 5) /\
  (exists m',
     deque_remove (S 0%nat) 5 m_abcde = Returns ABT_SUCCESS m' /\
     deque_pop_local (S 0%nat) m_abcde = Returns 5 m' /\
     tail_idx m' = tail_idx m_abcde - 1 /\
     head_idx m' = head_idx m_abcde /\
     foreign_lock m' = foreign_lock m_abcde /\
     unit_array m'
       = <[Z.to_nat (Z.land (tail_idx m_abcde - 1) (mask m_abcde)) := ABT_UNIT_NULL]> (unit_array m_abcde)).
Proof.
  assert (H1 : 0 <= head_idx m_abcde < tail_idx m_abcde)
    by (settle).
  assert (H2 : tail_idx m_abcde <= SIZE_MAX)
    by (settle).
  assert (H3 : 0 <= mask m_abcde < Z.of_nat (length (unit_array m_abcde)))
    by (settle).
  assert (H4 : 5 <> ABT_UNIT_NULL)
    by (discriminate).
  assert (H5 : unit_array m_abcde !! Z.to_nat (Z.land (tail_idx m_abcde - 1) (mask m_abcde)) = Some 5)
    by (settle).
  split; [exact (conj H1 (conj H2 (conj H3 (conj H4 H5)))) |].
  exact (remove_at_tail_is_pop m_abcde 5 (0%nat) H1 H2 H3 H4 H5).
Defined.

(** X11. Push on the fast path followed by remove of the same item succeeds
    and restores the state from before the push. *)
Theorem push_remove_round_trip (uninit : nat -> ABT_unit) (m : data_t) (item : ABT_unit) (fuel : nat) :
  deque_inv m ->
  tail_idx m < SIZE_MAX ->
  tail_idx m < size_t (head_idx m + mask m) ->
  item <> ABT_UNIT_NULL ->
  bind (deque_push uninit item) (fun _ => deque_remove (S fuel) item) m
  = Returns ABT_SUCCESS m.
Proof.
  intros Hinv Hmax Hfast Hitem.
  pose proof (inv_length_bounds m Hinv) as HL.
  pose proof (inv_fast_path_room m Hinv Hfast) as Hroom.
  pose proof (inv_next_slot_null m Hinv) as Hnext.
  pose proof Hinv as [Hh Ht Hpow Hmask Halloc Hcount Hnull Hfree].
  pose proof (land_bounds (tail_idx m) (mask m) ltac:(lia) ltac:(lia)) as Hb.
  unfold bind at 1. rewrite deque_push_fast by lia.
  rewrite remove_at_tail;
    cbn [head_idx tail_idx mask array_length unit_array foreign_lock];
    try rewrite length_insert; try lia; try assumption.
  - replace (tail_idx m + 1 - 1) with (tail_idx m) by lia.
    rewrite list_insert_insert_eq.
    rewrite list_insert_id by (apply Hnext; lia).
    destruct m; reflexivity.
  - replace (tail_idx m + 1 - 1) with (tail_idx m) by lia.
    apply list_lookup_insert_eq. lia.
Qed.

(** Item 6 is pushed on A, B, C, D, E and removed again. *)
Lemma push_remove_round_trip_witness :
  (deque_inv m_abcde /\
   tail_idx m_abcde < SIZE_MAX /\
   tail_idx m_abcde < size_t (head_idx m_abcde + mask m_abcde) /\
   6 <> ABT_UNIT_NULL) /\
  (bind (deque_push zeroed 6) (fun _ => deque_remove (S 0%nat) 6) m_abcde
   = Returns ABT_SUCCESS m_abcde).
Proof.
  assert (H1 : deque_inv m_abcde)
    by (exact inv_m_abcde).
  assert (H2 : tail_idx m_abcde < SIZE_MAX)
    by (settle).
  assert (H3 : tail_idx m_abcde < size_t (head_idx m_abcde + mask m_abcde))
    by (settle).
  assert (H4 : 6 <> ABT_UNIT_NULL)
    by (discriminate).
  split; [exact (conj H1 (conj H2 (conj H3 H4))) |].
  exact (push_remove_round_trip zeroed m_abcde 6 (0%nat) H1 H2 H3 H4).
Defined.

(** The locked part of remove, once the scan has found the item at index
    [i] below the top slot. *)
Lemma remove_found_spec (m : data_t) (i : Z) (item : ABT_unit) :
  0 <= head_idx m <= i -> i < tail_idx m -> tail_idx m <= SIZE_MAX ->
  foreign_lock m = Unlocked ->
  0 <= mask m < Z.of_nat (length (unit_array m)) ->
  item <> ABT_UNIT_NULL ->
  unit_array m !! Z.to_nat (Z.land i (mask m)) = Some item ->
  remove_found i m =
    Returns ABT_SUCCESS
      (Data (<[Z.to_nat (Z.land i (mask m)) := ABT_UNIT_NULL]> (unit_array m))
            (array_length m) (mask m)
            (if i =? head_idx m then head_idx m + 1 else head_idx m)
            (tail_idx m) Unlocked).
Proof.
  destruct m as [a len mk h t l]. simpl. intros Hh Hi Ht -> Hm Hitem Hslot.
  unfold remove_found. unfold_ops. simpl. rewrite Hslot.
  destruct (Z.eqb_spec item ABT_UNIT_NULL) as [Heq | _]; [contradiction |]. simpl.
  rewrite bool_decide_eq_true_2
    by (pose proof (land_bounds i mk ltac:(lia) ltac:(lia)); lia).
  simpl.
  destruct (Z.eqb_spec i t) as [Heq | _]; [lia |]. simpl.
  destruct (Z.eqb_spec i h) as [-> | _]; simpl.
  - rewrite size_t_small by lia. reflexivity.
  - reflexivity.
Qed.

(** The scan walks down from [i + d] to [i] over slots that hold other
    items. *)
Lemma remove_scan_walks_down (m : data_t) (item : ABT_unit) (i : Z) (d : nat) :
  forall fuel : nat,
    0 <= head_idx m <= i -> i + Z.of_nat d <= SIZE_MAX ->
    0 <= mask m < Z.of_nat (length (unit_array m)) ->
    (forall j, i < j <= i + Z.of_nat d ->
               unit_array m !! Z.to_nat (Z.land j (mask m)) <> Some item) ->
    remove_scan (d + fuel) (i + Z.of_nat d) item m = remove_scan fuel i item m.
Proof.
  induction d as [| d IH]; intros fuel Hh Hmax Hm Hother.
  - simpl. rewrite Z.add_0_r. reflexivity.
  - cbn [Nat.add remove_scan]. unfold bind at 1. unfold get at 1.
    destruct (Z.geb_spec (i + Z.of_nat (S d)) (head_idx m)) as [_ | Hlt]; [| lia].
    unfold bind at 1. unfold get at 1. unfold bind at 1. unfold load at 1.
    pose proof (slot_in_block m (i + Z.of_nat (S d)) ltac:(lia) Hm) as Hin.
    destruct (lookup_lt_is_Some_2 _ _ Hin) as [u Hu]. rewrite Hu.
    destruct (Z.eqb_spec u item) as [-> | _].
    + exfalso. apply (Hother (i + Z.of_nat (S d))); [lia | exact Hu].
    + replace (i + Z.of_nat (S d) - 1) with (i + Z.of_nat d) by lia.
      rewrite size_t_small by lia.
      apply IH; try assumption; try lia.
      intros j Hj. apply Hother. lia.
Qed.

(** X12. Remove of an item that sits at index [i] below the top slot, with no
    copy of it above: the scan walks down from T - 2 to [i], the slot becomes
    a tombstone, and remove returns success with the lock released. The tail
    stays; the head moves up by one exactly when the item was at the head. The
    invariants are kept. *)
Theorem remove_below_top (m : data_t) (item : ABT_unit) (i : Z) (fuel : nat) :
  0 <= head_idx m <= i ->
  i + 2 <= tail_idx m ->
  tail_idx m <= SIZE_MAX ->
  foreign_lock m = Unlocked ->
  0 <= mask m < Z.of_nat (length (unit_array m)) ->
  item <> ABT_UNIT_NULL ->
  unit_array m !! Z.to_nat (Z.land i (mask m)) = Some item ->
  (forall j, i < j < tail_idx m ->
             unit_array m !! Z.to_nat (Z.land j (mask m)) <> Some item) ->
  exists m',
    deque_remove (Z.to_nat (tail_idx m - 2 - i) + S fuel) item m
      = Returns ABT_SUCCESS m' /\
    m' = Data (<[Z.to_nat (Z.land i (mask m)) := ABT_UNIT_NULL]> (unit_array m))
              (array_length m) (mask m)
              (if i =? head_idx m then head_idx m + 1 else head_idx m)
              (tail_idx m) Unlocked /\
    (deque_inv m -> deque_inv m').
Proof.
  intros Hh Hi Ht Hfree Hm Hitem Hslot Hother.
  eexists. split; [| split; [reflexivity | intros Hinv; apply remove_inv; assumption || lia]].
  unfold deque_remove. unfold bind at 1 2 3. unfold get, load.
  rewrite (size_t_small (tail_idx m - 1)) by lia.
  pose proof (slot_in_block m (tail_idx m - 1) ltac:(lia) Hm) as Hin.
  destruct (lookup_lt_is_Some_2 _ _ Hin) as [u Hu]. rewrite Hu.
  destruct (Z.eqb_spec u item) as [-> | _].
  { exfalso. apply (Hother (tail_idx m - 1)); [lia | exact Hu]. }
  unfold bind at 1. rewrite (size_t_small (tail_idx m - 2)) by lia.
  remember (Z.to_nat (tail_idx m - 2 - i)) as d eqn:Hd.
  replace (tail_idx m - 2) with (i + Z.of_nat d) by lia.
  rewrite remove_scan_walks_down; try assumption; try lia.
  - cbn [remove_scan]. unfold bind at 1. unfold get at 1.
    destruct (Z.geb_spec i (head_idx m)) as [_ | Hlt]; [| lia].
    unfold bind at 1. unfold get at 1. unfold bind at 1. unfold load at 1.
    rewrite Hslot, Z.eqb_refl.
    apply remove_found_spec with (item := item); try assumption; lia.
  - intros j Hj. apply Hother. lia.
Qed.

(** C is removed from A, B, C, D, E. *)
Lemma remove_below_top_witness :
  (0 <= head_idx m_abcde <= 2 /\
   2 + 2 <= tail_idx m_abcde /\
   tail_idx m_abcde <= SIZE_MAX /\
   foreign_lock m_abcde = Unlocked /\
   0 <= mask m_abcde < Z.of_nat (length (unit_array m_abcde)) /\
   3 <> ABT_UNIT_NULL /\
   unit_array m_abcde !! Z.to_nat (Z.land 2 (mask m_abcde)) = Some 3 /\
   ((forall j, 2 < j < tail_idx m_abcde ->
             unit_array m_abcde !! Z.to_nat (Z.land j (mask m_abcde)) <> Some 3))) /\
  (exists m',
     deque_remove (Z.to_nat (tail_idx m_abcde - 2 - 2) + S 0%nat) 3 m_abcde
       = Returns ABT_SUCCESS m' /\
     m' = Data (<[Z.to_nat (Z.land 2 (mask m_abcde)) := ABT_UNIT_NULL]> (unit_array m_abcde))
               (array_length m_abcde) (mask m_abcde)
               (if 2 =? head_idx m_abcde then head_idx m_abcde + 1 else head_idx m_abcde)
               (tail_idx m_abcde) Unlocked /\
     (deque_inv m_abcde -> deque_inv m')).
Proof.
  assert (H1 : 0 <= head_idx m_abcde <= 2)
    by (settle).
  assert (H2 : 2 + 2 <= tail_idx m_abcde)
    by (settle).
  assert (H3 : tail_idx m_abcde <= SIZE_MAX)
    by (settle).
  assert (H4 : foreign_lock m_abcde = Unlocked)
    by (settle).
  assert (H5 : 0 <= mask m_abcde < Z.of_nat (length (unit_array m_abcde)))
    by (settle).
  assert (H6 : 3 <> ABT_UNIT_NULL)
    by (discriminate).
  assert (H7 : unit_array m_abcde !! Z.to_nat (Z.land 2 (mask m_abcde)) = Some 3)
    by (settle).
  assert (H8 : (forall j, 2 < j < tail_idx m_abcde ->
             unit_array m_abcde !! Z.to_nat (Z.land j (mask m_abcde)) <> Some 3))
    by (intros j Hj; assert (Ht : tail_idx m_abcde = 5) by (vm_compute; reflexivity); rewrite Ht in Hj; assert (j = 3 \/ j = 4) as [-> | ->] by lia; vm_compute; discriminate).
  split; [exact (conj H1 (conj H2 (conj H3 (conj H4 (conj H5 (conj H6 (conj H7 H8))))))) |].
  exact (remove_below_top m_abcde 3 2 (0%nat) H1 H2 H3 H4 H5 H6 H7 H8).
Defined.

(** The scan from [i] down to a head that is not 0 ends below the head when
    no slot holds the item. *)
Lemma remove_scan_ends (m : data_t) (item : ABT_unit) (d : nat) :
  forall (i : Z) (fuel : nat),
    1 <= head_idx m -> i <= SIZE_MAX -> i = head_idx m - 1 + Z.of_nat d ->
    0 <= mask m < Z.of_nat (length (unit_array m)) ->
    item ∉ unit_array m ->
    remove_scan (d + S fuel) i item m = Returns ABT_ERR_POOL m.
Proof.
  induction d as [| d IH]; intros i fuel Hh Hmax Hi Hm Habsent.
  - cbn [Nat.add remove_scan]. unfold bind, get, ret.
    destruct (Z.geb_spec i (head_idx m)) as [Hge | _]; [lia | reflexivity].
  - cbn [Nat.add remove_scan]. unfold bind at 1. unfold get at 1.
    destruct (Z.geb_spec i (head_idx m)) as [_ | Hlt]; [| lia].
    unfold bind at 1. unfold get at 1. unfold bind at 1. unfold load at 1.
    pose proof (slot_in_block m i ltac:(lia) Hm) as Hin.
    destruct (lookup_lt_is_Some_2 _ _ Hin) as [u Hu]. rewrite Hu.
    destruct (Z.eqb_spec u item) as [-> | _].
    + exfalso. apply Habsent. eapply list_elem_of_lookup_2. exact Hu.
    + rewrite size_t_small by lia. apply IH; try assumption; lia.
Qed.

(** X13. When the head is at least 1 and the tail at least 2, remove of an
    item that no slot holds returns not-found after scanning the live range
    and leaves the state unchanged. *)
Theorem remove_of_absent_item_not_found (m : data_t) (item : ABT_unit) (fuel : nat) :
  1 <= head_idx m <= tail_idx m ->
  2 <= tail_idx m ->
  tail_idx m <= SIZE_MAX ->
  0 <= mask m < Z.of_nat (length (unit_array m)) ->
  item ∉ unit_array m ->
  deque_remove (Z.to_nat (tail_idx m - head_idx m) + S fuel) item m
  = Returns ABT_ERR_POOL m.
Proof.
  intros Hh Ht2 Ht Hm Habsent.
  unfold deque_remove. unfold bind at 1 2 3. unfold get, load.
  rewrite (size_t_small (tail_idx m - 1)) by lia.
  pose proof (slot_in_block m (tail_idx m - 1) ltac:(lia) Hm) as Hin.
  destruct (lookup_lt_is_Some_2 _ _ Hin) as [u Hu]. rewrite Hu.
  destruct (Z.eqb_spec u item) as [-> | _].
  { exfalso. apply Habsent. eapply list_elem_of_lookup_2. exact Hu. }
  unfold bind at 1. rewrite (size_t_small (tail_idx m - 2)) by lia.
  destruct (Z.eq_dec (tail_idx m) (head_idx m)) as [Heq | Hne].
  - rewrite Heq, Z.sub_diag. change (Z.to_nat 0 + S fuel)%nat with (S fuel).
    cbn [remove_scan].
    unfold bind, get, ret.
    destruct (Z.geb_spec (head_idx m - 2) (head_idx m)) as [Hge | _]; [lia | reflexivity].
  - replace (Z.to_nat (tail_idx m - head_idx m) + S fuel)%nat
      with (Z.to_nat (tail_idx m - head_idx m - 1) + S (S fuel))%nat by lia.
    apply remove_scan_ends; try assumption; lia.
Qed.

(** Item 9 is looked for among B, C, D, E (H = 1, T = 5). *)
Lemma remove_of_absent_item_not_found_witness :
  (1 <= head_idx m_bcde <= tail_idx m_bcde /\
   2 <= tail_idx m_bcde /\
   tail_idx m_bcde <= SIZE_MAX /\
   0 <= mask m_bcde < Z.of_nat (length (unit_array m_bcde)) /\
   9 ∉ unit_array m_bcde) /\
  (deque_remove (Z.to_nat (tail_idx m_bcde - head_idx m_bcde) + S 0%nat) 9 m_bcde
   = Returns ABT_ERR_POOL m_bcde).
Proof.
  assert (H1 : 1 <= head_idx m_bcde <= tail_idx m_bcde)
    by (settle).
  assert (H2 : 2 <= tail_idx m_bcde)
    by (settle).
  assert (H3 : tail_idx m_bcde <= SIZE_MAX)
    by (settle).
  assert (H4 : 0 <= mask m_bcde < Z.of_nat (length (unit_array m_bcde)))
    by (settle).
  assert (H5 : 9 ∉ unit_array m_bcde)
    by (apply (bool_decide_eq_false_1 (9 ∈ unit_array m_bcde)); vm_compute; reflexivity).
  split; [exact (conj H1 (conj H2 (conj H3 (conj H4 H5)))) |].
  exact (remove_of_absent_item_not_found m_bcde 9 (0%nat) H1 H2 H3 H4 H5).
Defined.

(** ** Push on a full deque *)

(** The slow path of push on a deque with T - H >= mask, seen from
    [deque_push]. *)
Lemma deque_push_grows (uninit : nat -> ABT_unit) (m : data_t) (item : ABT_unit) :
  deque_inv m ->
  tail_idx m < SIZE_MAX ->
  mask m <= tail_idx m - head_idx m ->
  deque_push uninit item m = push_slow uninit (tail_idx m) item m.
Proof.
  intros Hinv Hmax Hfull.
  pose proof (inv_length_bounds m Hinv) as HL.
  destruct Hinv as [Hh Ht _ Hmask _ Hcount _ _].
  unfold deque_push, bind. rewrite wrap_guard_below_max by lia. unfold get.
  rewrite size_t_small by lia.
  destruct (Z.ltb_spec (tail_idx m) (head_idx m + mask m)) as [Hlt | _]; [lia |].
  reflexivity.
Qed.

(** X14. A push on a deque with T - H >= mask, whose array is no longer
    than [INT_MAX] (the copy loop counts in an [int]), takes the slow path
    and grows: the new array has twice as many slots, the mask is
    [2 * mask + 1], the old slots are copied starting from the head, H is 0
    and the item is stored in slot T - H. Neither the tail index nor
    [array_length] is written after that: T is the old count, so the item
    lies outside the live range, and [array_length] keeps its old value. *)
Theorem push_on_full_deque_grows (uninit : nat -> ABT_unit) (m : data_t) (item : ABT_unit) :
  deque_inv m ->
  tail_idx m < SIZE_MAX ->
  array_length m <= INT_MAX ->
  mask m <= tail_idx m - head_idx m ->
  exists m',
    deque_push uninit item m = Returns tt m' /\
    length (unit_array m') = (2 * length (unit_array m))%nat /\
    mask m' = 2 * mask m + 1 /\
    array_length m' = array_length m /\
    head_idx m' = 0 /\
    tail_idx m' = tail_idx m - head_idx m /\
    foreign_lock m' = Unlocked /\
    unit_array m' !! Z.to_nat (tail_idx m - head_idx m) = Some item /\
    (forall i : nat,
       (i < length (unit_array m))%nat ->
       Z.of_nat i <> tail_idx m - head_idx m ->
       unit_array m' !! i
       = unit_array m !! Z.to_nat (Z.land (size_t (Z.of_nat i + head_idx m)) (mask m))).
Proof.
  intros Hinv Hmax Hfit Hfull.
  destruct (push_slow_grows uninit m (tail_idx m) item Hinv Hfit Hfull)
    as [m' [Hrun [Hlen [Hmask [Hhead [Htail [Hal [Hlock [Hitem Hcopy]]]]]]]]].
  exists m'. rewrite deque_push_grows by assumption.
  repeat (split; [assumption |]). exact Hcopy.
Qed.

(** The 256th push into a fresh deque. *)
Lemma push_on_full_deque_grows_witness :
  (deque_inv m255 /\
   tail_idx m255 < SIZE_MAX /\
   array_length m255 <= INT_MAX /\
   mask m255 <= tail_idx m255 - head_idx m255) /\
  (exists m',
     deque_push zeroed 256 m255 = Returns tt m' /\
     length (unit_array m') = (2 * length (unit_array m255))%nat /\
     mask m' = 2 * mask m255 + 1 /\
     array_length m' = array_length m255 /\
     head_idx m' = 0 /\
     tail_idx m' = tail_idx m255 - head_idx m255 /\
     foreign_lock m' = Unlocked /\
     unit_array m' !! Z.to_nat (tail_idx m255 - head_idx m255) = Some 256 /\
     (forall i : nat,
        (i < length (unit_array m255))%nat ->
        Z.of_nat i <> tail_idx m255 - head_idx m255 ->
        unit_array m' !! i
        = unit_array m255 !! Z.to_nat (Z.land (size_t (Z.of_nat i + head_idx m255)) (mask m255)))).
Proof.
  assert (H1 : deque_inv m255)
    by (exact inv_m255).
  assert (H2 : tail_idx m255 < SIZE_MAX)
    by (settle).
  assert (H3 : array_length m255 <= INT_MAX)
    by (settle).
  assert (H4 : mask m255 <= tail_idx m255 - head_idx m255)
    by (settle).
  split; [exact (conj H1 (conj H2 (conj H3 H4))) |].
  exact (push_on_full_deque_grows zeroed m255 256 H1 H2 H3 H4).
Defined.

(** X15. Two pushes in a row on a deque with T - H >= mask whose array is
    no longer than [INT_MAX]: the first one grows and stores its item in slot
    T - H without advancing the tail, the second one takes the fast path and
    stores its item in the same slot. The first item is overwritten. *)
Theorem second_push_overwrites_slow_push (uninit : nat -> ABT_unit) (m : data_t) (a b : ABT_unit) :
  deque_inv m ->
  tail_idx m < SIZE_MAX ->
  array_length m <= INT_MAX ->
  1 <= mask m <= tail_idx m - head_idx m ->
  exists m1 m2,
    deque_push uninit a m = Returns tt m1 /\
    unit_array m1 !! Z.to_nat (tail_idx m - head_idx m) = Some a /\
    tail_idx m1 - head_idx m1 = tail_idx m - head_idx m /\
    deque_push uninit b m1 = Returns tt m2 /\
    unit_array m2 = <[Z.to_nat (tail_idx m - head_idx m) := b]> (unit_array m1) /\
    head_idx m2 = 0 /\
    tail_idx m2 = tail_idx m - head_idx m + 1.
Proof.
  intros Hinv Hmax Hfit Hfull.
  pose proof (inv_length_bounds m Hinv) as HL.
  destruct (push_slow_grows uninit m (tail_idx m) a Hinv Hfit ltac:(lia))
    as [m1 [Hrun [Hlen [Hmask1 [Hhead [Htail [Hal [Hlock [Hitem Hcopy]]]]]]]]].
  pose proof Hinv as [Hh Ht [k [Hk Hpow]] Hmask Halloc Hcount _ _].
  assert (Hidx : Z.land (tail_idx m1) (mask m1) = tail_idx m - head_idx m).
  { rewrite Htail, Hmask1, Hmask, Hpow.
    replace (2 * (2 ^ k - 1) + 1) with (2 ^ (k + 1) - 1)
      by (rewrite Z.pow_add_r by lia; change (2 ^ 1) with 2; lia).
    rewrite land_mask_pow2 by lia. apply Z.mod_small.
    rewrite Z.pow_add_r by lia. change (2 ^ 1) with 2. lia. }
  exists m1. eexists.
  split; [rewrite deque_push_grows by (assumption || lia); exact Hrun |].
  split; [exact Hitem |]. split; [lia |].
  split.
  - apply deque_push_fast.
    + lia.
    + rewrite Hhead, Hmask1, size_t_small by (unfold SIZE_MAX; lia). lia.
    + lia.
  - cbn [unit_array head_idx tail_idx]. rewrite Hidx.
    split; [reflexivity |]. split; [exact Hhead | lia].
Qed.

(** The 256th and the 257th push into a fresh deque. *)
Lemma second_push_overwrites_slow_push_witness :
  (deque_inv m255 /\
   tail_idx m255 < SIZE_MAX /\
   array_length m255 <= INT_MAX /\
   1 <= mask m255 <= tail_idx m255 - head_idx m255) /\
  (exists m1 m2,
     deque_push zeroed 256 m255 = Returns tt m1 /\
     unit_array m1 !! Z.to_nat (tail_idx m255 - head_idx m255) = Some 256 /\
     tail_idx m1 - head_idx m1 = tail_idx m255 - head_idx m255 /\
     deque_push zeroed 257 m1 = Returns tt m2 /\
     unit_array m2 = <[Z.to_nat (tail_idx m255 - head_idx m255) := 257]> (unit_array m1) /\
     head_idx m2 = 0 /\
     tail_idx m2 = tail_idx m255 - head_idx m255 + 1).
Proof.
  assert (H1 : deque_inv m255)
    by (exact inv_m255).
  assert (H2 : tail_idx m255 < SIZE_MAX)
    by (settle).
  assert (H3 : array_length m255 <= INT_MAX)
    by (settle).
  assert (H4 : 1 <= mask m255 <= tail_idx m255 - head_idx m255)
    by (settle).
  split; [exact (conj H1 (conj H2 (conj H3 H4))) |].
  exact (second_push_overwrites_slow_push zeroed m255 256 257 H1 H2 H3 H4).
Defined.

(** ** The fast path of push, slot by slot *)

(** X23. On the fast path (tail below [SIZE_MAX] and tail < head + mask as
    the code computes it) push does not touch the foreign lock, whoever
    holds it. When the slot [tail & mask] lies within the block, push writes
    that slot and sets the tail to [tail + 1]; head, mask, array length and
    lock keep their values and so does every other slot. When the slot lies
    outside the block, the store is outside the allocated array. *)
Theorem push_fast_path_frame (uninit : nat -> ABT_unit) (m : data_t) (item : ABT_unit) :
  0 <= tail_idx m < SIZE_MAX ->
  tail_idx m < size_t (head_idx m + mask m) ->
  let idx := Z.to_nat (Z.land (tail_idx m) (mask m)) in
  ((idx < length (unit_array m))%nat ->
   exists m',
     deque_push uninit item m = Returns tt m' /\
     unit_array m' = <[idx := item]> (unit_array m) /\
     unit_array m' !! idx = Some item /\
     (forall j : nat, j <> idx -> unit_array m' !! j = unit_array m !! j) /\
     length (unit_array m') = length (unit_array m) /\
     tail_idx m' = tail_idx m + 1 /\
     head_idx m' = head_idx m /\
     mask m' = mask m /\
     array_length m' = array_length m /\
     foreign_lock m' = foreign_lock m) /\
  ((length (unit_array m) <= idx)%nat ->
   deque_push uninit item m = Faults m).
Proof.
  intros Ht Hfast idx.
  assert (Hpush : deque_push uninit item m = push_fast (tail_idx m) item m).
  { unfold deque_push, bind. rewrite wrap_guard_below_max by lia.
    unfold get.
    destruct (Z.ltb_spec (tail_idx m) (size_t (head_idx m + mask m))); [| lia].
    reflexivity. }
  split.
  - intros Hidx. eexists. split.
    + rewrite Hpush. apply push_fast_in_block; assumption.
    + simpl. fold idx. repeat split.
      * apply list_lookup_insert_eq. exact Hidx.
      * intros j Hj. apply list_lookup_insert_ne. congruence.
      * apply length_insert.
  - intros Hout. rewrite Hpush. apply push_fast_outside_block. exact Hout.
Qed.

(** Inside the block with the foreign lock held by somebody else; outside
    the block after 514 pushes into a fresh deque. *)
Lemma push_fast_path_frame_witness :
  (0 <= tail_idx m_lock_held < SIZE_MAX /\
   tail_idx m_lock_held < size_t (head_idx m_lock_held + mask m_lock_held) /\
   (Z.to_nat (Z.land (tail_idx m_lock_held) (mask m_lock_held))
    < length (unit_array m_lock_held))%nat) /\
  (exists m',
     deque_push zeroed 6 m_lock_held = Returns tt m' /\
     unit_array m' = <[5%nat := 6]> (unit_array m_lock_held) /\
     unit_array m' !! 5%nat = Some 6 /\
     (forall j : nat, j <> 5%nat -> unit_array m' !! j = unit_array m_lock_held !! j) /\
     length (unit_array m') = length (unit_array m_lock_held) /\
     tail_idx m' = tail_idx m_lock_held + 1 /\
     head_idx m' = head_idx m_lock_held /\
     mask m' = mask m_lock_held /\
     array_length m' = array_length m_lock_held /\
     foreign_lock m' = Locked) /\
  (0 <= tail_idx m514 < SIZE_MAX /\
   tail_idx m514 < size_t (head_idx m514 + mask m514) /\
   (length (unit_array m514)
    <= Z.to_nat (Z.land (tail_idx m514) (mask m514)))%nat) /\
  deque_push zeroed 515 m514 = Faults m514.
Proof.
  assert (H1 : 0 <= tail_idx m_lock_held < SIZE_MAX) by settle.
  assert (H2 : tail_idx m_lock_held < size_t (head_idx m_lock_held + mask m_lock_held))
    by settle.
  assert (H3 : (Z.to_nat (Z.land (tail_idx m_lock_held) (mask m_lock_held))
                < length (unit_array m_lock_held))%nat)
    by (vm_compute; lia).
  assert (T514 : tail_idx m514 = 512) by (vm_compute; reflexivity).
  assert (H514 : head_idx m514 = 0) by (vm_compute; reflexivity).
  assert (M514 : mask m514 = 1023) by (vm_compute; reflexivity).
  assert (L514 : length (unit_array m514) = 512%nat) by (vm_compute; reflexivity).
  assert (H4 : 0 <= tail_idx m514 < SIZE_MAX)
    by (rewrite T514; unfold SIZE_MAX; lia).
  assert (H5 : tail_idx m514 < size_t (head_idx m514 + mask m514))
    by (rewrite T514, H514, M514; vm_compute; reflexivity).
  assert (H6 : (length (unit_array m514)
                <= Z.to_nat (Z.land (tail_idx m514) (mask m514)))%nat)
    by (rewrite T514, M514, L514; vm_compute; lia).
  split; [exact (conj H1 (conj H2 H3)) |].
  split; [exact (proj1 (push_fast_path_frame zeroed m_lock_held 6 H1 H2) H3) |].
  split; [exact (conj H4 (conj H5 H6)) |].
  exact (proj2 (push_fast_path_frame zeroed m514 515 H4 H5) H6).
Defined.

(** ** Push at the top of the index range *)

(** X24. Push is called with T = [SIZE_MAX] on a state that satisfies the
    invariants and holds fewer than L items. The wrap guard replaces H with
    [H & mask] and T with [T & mask]; the collapse keeps the live count,
    T' - H' = T - H (so also modulo 2^64), and T' <= L. When moreover
    T - H < L - 1, so that the push goes on along the fast path, the item is
    stored at [array[T' & mask]], the tail becomes T' + 1, and the local pop
    that follows returns the item. *)
Theorem push_at_max_collapses_indices (uninit : nat -> ABT_unit) (m : data_t)
    (item : ABT_unit) (fuel : nat) :
  deque_inv m ->
  tail_idx m = SIZE_MAX ->
  tail_idx m - head_idx m < array_length m ->
  item <> ABT_UNIT_NULL ->
  exists mc,
    wrap_guard m = Returns (Z.land (tail_idx m) (mask m)) mc /\
    head_idx mc = Z.land (head_idx m) (mask m) /\
    tail_idx mc = Z.land (tail_idx m) (mask m) /\
    unit_array mc = unit_array m /\
    mask mc = mask m /\
    array_length mc = array_length m /\
    tail_idx mc - head_idx mc = tail_idx m - head_idx m /\
    size_t (tail_idx mc - head_idx mc) = size_t (tail_idx m - head_idx m) /\
    tail_idx mc <= array_length m /\
    (tail_idx m - head_idx m < mask m ->
     exists m2 m3,
       deque_push uninit item m = Returns tt m2 /\
       unit_array m2 = <[Z.to_nat (Z.land (tail_idx mc) (mask m)) := item]> (unit_array m) /\
       unit_array m2 !! Z.to_nat (Z.land (tail_idx mc) (mask m)) = Some item /\
       tail_idx m2 = tail_idx mc + 1 /\
       head_idx m2 = head_idx mc /\
       deque_pop_local (S fuel) m2 = Returns item m3).
Proof.
  intros [Hh Ht [k [Hk Hlen]] Hmask Halloc Hcount _ Hfree] Hmax Hroom Hitem.
  pose proof (pow2_below_max k Hk) as Hpow.
  assert (HT : Z.land (tail_idx m) (mask m) = array_length m - 1).
  { rewrite Hmask, Hlen, land_mask_pow2 by lia. rewrite Hmax.
    replace SIZE_MAX with (SIZE_MAX - 0) by lia.
    rewrite below_max_mod_pow2 by lia. lia. }
  assert (HH : Z.land (head_idx m) (mask m)
               = array_length m - 1 - (tail_idx m - head_idx m)).
  { rewrite Hmask, Hlen, land_mask_pow2 by lia.
    replace (head_idx m) with (SIZE_MAX - (tail_idx m - head_idx m)) at 1 by lia.
    rewrite below_max_mod_pow2 by lia. reflexivity. }
  eexists. split; [apply wrap_guard_at_max; assumption |].
  cbn [head_idx tail_idx unit_array mask array_length].
  rewrite HT, HH.
  do 5 (split; [reflexivity |]).
  split; [lia |]. split; [f_equal; lia |]. split; [lia |].
  intros Hfast.
  assert (Hidx : Z.land (array_length m - 1) (mask m) = array_length m - 1).
  { rewrite Hmask, Hlen, land_mask_pow2 by lia. apply Z.mod_small. lia. }
  rewrite Hidx.
  assert (Hin : (Z.to_nat (array_length m - 1) < length (unit_array m))%nat) by lia.
  eexists. eexists. split; [| split; [| split; [| split; [| split]]]].
  - unfold deque_push. unfold bind at 1.
    rewrite wrap_guard_at_max by assumption. rewrite HT, HH.
    unfold bind, get. cbn [head_idx mask].
    rewrite size_t_small by (unfold SIZE_MAX; lia).
    destruct (Z.ltb_spec (array_length m - 1)
                (array_length m - 1 - (tail_idx m - head_idx m) + mask m)) as [_ | Hge];
      [| lia].
    rewrite push_fast_spec.
    + cbn [head_idx tail_idx unit_array mask array_length foreign_lock].
      rewrite Hidx. reflexivity.
    + unfold SIZE_MAX. lia.
    + cbn [unit_array mask]. lia.
  - reflexivity.
  - cbn [unit_array]. apply list_lookup_insert_eq. exact Hin.
  - reflexivity.
  - reflexivity.
  - rewrite pop_local_takes_top with (item := item).
    + reflexivity.
    + cbn [head_idx tail_idx]. lia.
    + cbn [tail_idx]. unfold SIZE_MAX. lia.
    + cbn [unit_array mask]. rewrite length_insert. lia.
    + exact Hitem.
    + cbn [head_idx tail_idx unit_array mask].
      replace (array_length m - 1 + 1 - 1) with (array_length m - 1) by lia.
      rewrite Hidx. apply list_lookup_insert_eq. exact Hin.
Qed.

(** Three live items below a tail at [SIZE_MAX]; item 7 is pushed and
    popped again. *)
Lemma push_at_max_collapses_indices_witness :
  (deque_inv three_at_max /\
   tail_idx three_at_max = SIZE_MAX /\
   tail_idx three_at_max - head_idx three_at_max < array_length three_at_max /\
   7 <> ABT_UNIT_NULL /\
   tail_idx three_at_max - head_idx three_at_max < mask three_at_max) /\
  exists mc m2 m3,
    wrap_guard three_at_max = Returns 255 mc /\
    head_idx mc = 252 /\
    tail_idx mc = 255 /\
    tail_idx mc - head_idx mc = tail_idx three_at_max - head_idx three_at_max /\
    deque_push zeroed 7 three_at_max = Returns tt m2 /\
    unit_array m2 !! 255%nat = Some 7 /\
    tail_idx m2 = 256 /\
    head_idx m2 = 252 /\
    deque_pop_local 1 m2 = Returns 7 m3.
Proof.
  assert (Hinv : deque_inv three_at_max) by exact inv_three_at_max.
  assert (Hmax : tail_idx three_at_max = SIZE_MAX) by reflexivity.
  assert (Hroom : tail_idx three_at_max - head_idx three_at_max
                  < array_length three_at_max) by (vm_compute; reflexivity).
  assert (Hitem : 7 <> ABT_UNIT_NULL) by discriminate.
  assert (Hfast : tail_idx three_at_max - head_idx three_at_max
                  < mask three_at_max) by (vm_compute; reflexivity).
  split; [exact (conj Hinv (conj Hmax (conj Hroom (conj Hitem Hfast)))) |].
  destruct (push_at_max_collapses_indices zeroed three_at_max 7 0 Hinv Hmax Hroom Hitem)
    as [mc [Hguard [Hh [Ht [_ [_ [_ [Hcount [_ [_ Hpush]]]]]]]]]].
  destruct (Hpush Hfast) as [m2 [m3 [Hrun [_ [Hslot [Ht2 [Hh2 Hpop]]]]]]].
  assert (HT : Z.land (tail_idx three_at_max) (mask three_at_max) = 255)
    by (vm_compute; reflexivity).
  assert (HH : Z.land (head_idx three_at_max) (mask three_at_max) = 252)
    by (vm_compute; reflexivity).
  assert (Hidx : Z.to_nat (Z.land 255 (mask three_at_max)) = 255%nat)
    by (vm_compute; reflexivity).
  rewrite HT in Hguard, Ht. rewrite HH in Hh.
  rewrite Ht, Hidx in Hslot. rewrite Ht in Ht2. rewrite Hh in Hh2.
  exists mc, m2, m3.
  exact (conj Hguard (conj Hh (conj Ht (conj Hcount
           (conj Hrun (conj Hslot (conj Ht2 (conj Hh2 Hpop)))))))).
Defined.

(** ** Push a list, then drain *)

(** The monad laws that the runs below need. *)
Lemma bind_returns {A B} (c : M A) (k : A -> M B) (m m' : data_t) (a : A) :
  c m = Returns a m' -> bind c k m = k a m'.
Proof. intros H. unfold bind. rewrite H. reflexivity. Qed.

(** As long as they stay on the fast path, pushes append to the contents. *)
Lemma push_all_contents (uninit : nat -> ABT_unit) (l : list ABT_unit) :
  forall m : data_t,
    deque_inv m ->
    tail_idx m - head_idx m + Z.of_nat (length l) <= mask m ->
    head_idx m + mask m <= SIZE_MAX ->
    exists m',
      push_all uninit l m = Returns tt m' /\
      deque_inv m' /\
      contents m' = contents m ++ l /\
      head_idx m' = head_idx m /\
      tail_idx m' = tail_idx m + Z.of_nat (length l) /\
      mask m' = mask m.
Proof.
  induction l as [| x l IH]; intros m Hinv Hroom Hwrap.
  - exists m. cbn [push_all length]. rewrite app_nil_r.
    split; [reflexivity |]. split; [exact Hinv |].
    split; [reflexivity |]. split; [reflexivity |]. split; [lia | reflexivity].
  - cbn [length] in Hroom.
    pose proof (inv_length_bounds m Hinv) as HL.
    pose proof Hinv as [Hh Ht Hpow Hmask Halloc Hcount Hnull Hfree].
    assert (Hpush : deque_push uninit x m =
              Returns tt (Data (<[Z.to_nat (tail_idx m mod array_length m) := x]> (unit_array m))
                               (array_length m) (mask m) (head_idx m) (tail_idx m + 1)
                               (foreign_lock m))).
    { rewrite <- (inv_land m _ Hinv). apply deque_push_fast; try lia.
      rewrite size_t_small by lia. lia. }
    destruct (IH _ (push_fast_inv m x Hinv ltac:(lia) ltac:(lia))
                ltac:(cbn [head_idx tail_idx mask]; lia)
                ltac:(cbn [head_idx tail_idx mask]; lia))
      as [m' [Hrun [Hinv' [Hc [Hh' [Ht' Hm']]]]]].
    exists m'. cbn [push_all]. rewrite (bind_returns _ _ _ _ _ Hpush).
    split; [exact Hrun |]. split; [exact Hinv' |].
    rewrite Hc, contents_after_push by (assumption || lia).
    cbn [head_idx tail_idx mask] in *. rewrite <- app_assoc.
    split; [reflexivity |]. split; [exact Hh' |].
    split; [cbn [length]; lia | exact Hm'].
Qed.

(** Steals hand out the contents from the head on. *)
Lemma steal_all (fuel n : nat) :
  forall m : data_t,
    deque_inv m ->
    length (contents m) = n ->
    Forall (fun x => x <> ABT_UNIT_NULL) (contents m) ->
    exists m',
      repeat_op n (deque_pop_steal (S fuel)) m = Returns (contents m) m' /\
      deque_inv m' /\
      head_idx m' = tail_idx m /\
      tail_idx m' = tail_idx m.
Proof.
  induction n as [| n IH]; intros m Hinv Hlen Hnn.
  - exists m. pose proof (contents_length m) as Hl.
    destruct Hinv as [? ? ? ? ? Hcount ? ?].
    destruct (contents m); [| discriminate].
    cbn [repeat_op]. split; [reflexivity |].
    split; [constructor; assumption |]. split; [lia | reflexivity].
  - destruct (contents m) as [| x rest] eqn:Hc; [discriminate |].
    destruct (contents_head m x rest Hinv Hc) as [Hlive Hslot].
    pose proof (inv_length_bounds m Hinv) as HL.
    pose proof Hinv as [Hh Ht Hpow Hmask Halloc Hcount Hnull Hfree].
    inversion Hnn as [| ? ? Hx Hrest]; subst.
    assert (Hsteal : deque_pop_steal (S fuel) m =
              Returns x (Data (<[Z.to_nat (head_idx m mod array_length m) := ABT_UNIT_NULL]>
                                 (unit_array m))
                              (array_length m) (mask m) (head_idx m + 1) (tail_idx m)
                              Unlocked)).
    { rewrite <- (inv_land m _ Hinv).
      apply steal_takes_head; try lia; try assumption.
      rewrite (inv_land m _ Hinv). exact Hslot. }
    pose proof (contents_after_steal m Hinv Hlive) as Hc'. rewrite Hc in Hc'. cbn [tl] in Hc'.
    destruct (IH _ (steal_inv m Hinv Hlive)
                ltac:(rewrite Hc'; cbn [length] in Hlen; lia)
                ltac:(rewrite Hc'; exact Hrest))
      as [m' [Hrun [Hinv' [Hh' Ht']]]].
    exists m'. cbn [repeat_op]. rewrite (bind_returns _ _ _ _ _ Hsteal).
    rewrite (bind_returns _ _ _ _ _ Hrun). rewrite Hc'.
    split; [reflexivity |]. split; [exact Hinv' |].
    cbn [head_idx tail_idx] in *. split; assumption.
Qed.

(** Local pops hand out the contents from the tail on. *)
Lemma pop_all (fuel n : nat) :
  forall m : data_t,
    deque_inv m ->
    length (contents m) = n ->
    Forall (fun x => x <> ABT_UNIT_NULL) (contents m) ->
    exists m',
      repeat_op n (deque_pop_local (S fuel)) m = Returns (rev (contents m)) m' /\
      deque_inv m' /\
      head_idx m' = head_idx m /\
      tail_idx m' = head_idx m.
Proof.
  induction n as [| n IH]; intros m Hinv Hlen Hnn.
  - exists m. pose proof (contents_length m) as Hl.
    destruct Hinv as [? ? ? ? ? Hcount ? ?].
    destruct (contents m); [| discriminate].
    cbn [repeat_op rev]. split; [reflexivity |].
    split; [constructor; assumption |]. split; [reflexivity | lia].
  - destruct (exists_last (l := contents m)) as [init [x Hc]].
    { intros Hnil. rewrite Hnil in Hlen. discriminate. }
    destruct (contents_last m x init Hinv Hc) as [Hlive Hslot].
    pose proof (inv_length_bounds m Hinv) as HL.
    pose proof Hinv as [Hh Ht Hpow Hmask Halloc Hcount Hnull Hfree].
    rewrite Hc in Hnn. apply Forall_app in Hnn. destruct Hnn as [Hinit Hx].
    inversion Hx as [| ? ? Hx' _]; subst.
    assert (Hpop : deque_pop_local (S fuel) m =
              Returns x (Data (<[Z.to_nat ((tail_idx m - 1) mod array_length m) := ABT_UNIT_NULL]>
                                 (unit_array m))
                              (array_length m) (mask m) (head_idx m) (tail_idx m - 1)
                              (foreign_lock m))).
    { rewrite <- (inv_land m _ Hinv).
      apply pop_local_takes_top; try lia; try assumption.
      rewrite (inv_land m _ Hinv). exact Hslot. }
    pose proof (contents_after_pop m Hinv Hlive) as Hc'.
    rewrite Hc, removelast_last in Hc'.
    destruct (IH _ (pop_inv m Hinv Hlive)
                ltac:(rewrite Hc'; rewrite Hc, length_app in Hlen; cbn [length] in Hlen; lia)
                ltac:(rewrite Hc'; exact Hinit))
      as [m' [Hrun [Hinv' [Hh' Ht']]]].
    exists m'. cbn [repeat_op]. rewrite (bind_returns _ _ _ _ _ Hpop).
    rewrite (bind_returns _ _ _ _ _ Hrun). rewrite Hc', Hc, rev_unit.
    split; [reflexivity |]. split; [exact Hinv' |].
    cbn [head_idx tail_idx] in *. split; assumption.
Qed.

(** X16. LIFO. On a deque without tombstones, pushes that stay on the fast
    path followed by as many local pops as there are items return the pushed
    items in reverse order and then the older contents from the tail down; the
    deque is empty afterwards and satisfies the invariants. *)
Theorem push_all_pop_all (uninit : nat -> ABT_unit) (m : data_t) (l : list ABT_unit) (fuel : nat) :
  deque_inv m ->
  Forall (fun x => x <> ABT_UNIT_NULL) (contents m) ->
  Forall (fun x => x <> ABT_UNIT_NULL) l ->
  tail_idx m - head_idx m + Z.of_nat (length l) <= mask m ->
  head_idx m + mask m <= SIZE_MAX ->
  exists m',
    bind (push_all uninit l)
         (fun _ => repeat_op (length (contents m) + length l)
                             (deque_pop_local (S fuel))) m
    = Returns (rev l ++ rev (contents m)) m' /\
    deque_inv m' /\
    head_idx m' = head_idx m /\
    tail_idx m' = head_idx m.
Proof.
  intros Hinv Hold Hnew Hroom Hwrap.
  destruct (push_all_contents uninit l m Hinv Hroom Hwrap)
    as [m1 [Hrun [Hinv1 [Hc [Hh1 [Ht1 Hm1]]]]]].
  destruct (pop_all fuel (length (contents m) + length l) m1 Hinv1
              ltac:(rewrite Hc, length_app; reflexivity)
              ltac:(rewrite Hc; apply Forall_app; split; assumption))
    as [m' [Hpop [Hinv' [Hh' Ht']]]].
  exists m'. rewrite (bind_returns _ _ _ _ _ Hrun). rewrite Hpop, Hc, rev_app_distr.
  split; [reflexivity |]. split; [exact Hinv' |]. split; lia.
Qed.

(** 6 and 7 are pushed on A, B, C, D, E; seven pops follow. *)
Lemma push_all_pop_all_witness :
  (deque_inv m_abcde /\
   Forall (fun x => x <> ABT_UNIT_NULL) (contents m_abcde) /\
   Forall (fun x => x <> ABT_UNIT_NULL) [6; 7] /\
   tail_idx m_abcde - head_idx m_abcde + Z.of_nat (length [6; 7]) <= mask m_abcde /\
   head_idx m_abcde + mask m_abcde <= SIZE_MAX) /\
  (exists m',
     bind (push_all zeroed [6; 7])
          (fun _ => repeat_op (length (contents m_abcde) + length [6; 7])
                              (deque_pop_local (S 0%nat))) m_abcde
     = Returns (rev [6; 7] ++ rev (contents m_abcde)) m' /\
     deque_inv m' /\
     head_idx m' = head_idx m_abcde /\
     tail_idx m' = head_idx m_abcde).
Proof.
  assert (H1 : deque_inv m_abcde)
    by (exact inv_m_abcde).
  assert (H2 : Forall (fun x => x <> ABT_UNIT_NULL) (contents m_abcde))
    by (vm_compute; repeat (constructor; [discriminate |]); constructor).
  assert (H3 : Forall (fun x => x <> ABT_UNIT_NULL) [6; 7])
    by (repeat (constructor; [discriminate |]); constructor).
  assert (H4 : tail_idx m_abcde - head_idx m_abcde + Z.of_nat (length [6; 7]) <= mask m_abcde)
    by (settle).
  assert (H5 : head_idx m_abcde + mask m_abcde <= SIZE_MAX)
    by (settle).
  split; [exact (conj H1 (conj H2 (conj H3 (conj H4 H5)))) |].
  exact (push_all_pop_all zeroed m_abcde ([6; 7]) (0%nat) H1 H2 H3 H4 H5).
Defined.

(** X17. FIFO. On a deque without tombstones, pushes that stay on the fast
    path followed by as many steals as there are items return the older
    contents from the head on and then the pushed items in push order; the
    deque is empty afterwards and satisfies the invariants. *)
Theorem push_all_steal_all (uninit : nat -> ABT_unit) (m : data_t) (l : list ABT_unit) (fuel : nat) :
  deque_inv m ->
  Forall (fun x => x <> ABT_UNIT_NULL) (contents m) ->
  Forall (fun x => x <> ABT_UNIT_NULL) l ->
  tail_idx m - head_idx m + Z.of_nat (length l) <= mask m ->
  head_idx m + mask m <= SIZE_MAX ->
  exists m',
    bind (push_all uninit l)
         (fun _ => repeat_op (length (contents m) + length l)
                             (deque_pop_steal (S fuel))) m
    = Returns (contents m ++ l) m' /\
    deque_inv m' /\
    head_idx m' = tail_idx m + Z.of_nat (length l) /\
    tail_idx m' = tail_idx m + Z.of_nat (length l).
Proof.
  intros Hinv Hold Hnew Hroom Hwrap.
  destruct (push_all_contents uninit l m Hinv Hroom Hwrap)
    as [m1 [Hrun [Hinv1 [Hc [Hh1 [Ht1 Hm1]]]]]].
  destruct (steal_all fuel (length (contents m) + length l) m1 Hinv1
              ltac:(rewrite Hc, length_app; reflexivity)
              ltac:(rewrite Hc; apply Forall_app; split; assumption))
    as [m' [Hsteal [Hinv' [Hh' Ht']]]].
  exists m'. rewrite (bind_returns _ _ _ _ _ Hrun). rewrite Hsteal, Hc.
  split; [reflexivity |]. split; [exact Hinv' |]. split; lia.
Qed.

(** 6 and 7 are pushed on A, B, C, D, E; seven steals follow. *)
Lemma push_all_steal_all_witness :
  (deque_inv m_abcde /\
   Forall (fun x => x <> ABT_UNIT_NULL) (contents m_abcde) /\
   Forall (fun x => x <> ABT_UNIT_NULL) [6; 7] /\
   tail_idx m_abcde - head_idx m_abcde + Z.of_nat (length [6; 7]) <= mask m_abcde /\
   head_idx m_abcde + mask m_abcde <= SIZE_MAX) /\
  (exists m',
     bind (push_all zeroed [6; 7])
          (fun _ => repeat_op (length (contents m_abcde) + length [6; 7])
                              (deque_pop_steal (S 0%nat))) m_abcde
     = Returns (contents m_abcde ++ [6; 7]) m' /\
     deque_inv m' /\
     head_idx m' = tail_idx m_abcde + Z.of_nat (length [6; 7]) /\
     tail_idx m' = tail_idx m_abcde + Z.of_nat (length [6; 7])).
Proof.
  assert (H1 : deque_inv m_abcde)
    by (exact inv_m_abcde).
  assert (H2 : Forall (fun x => x <> ABT_UNIT_NULL) (contents m_abcde))
    by (vm_compute; repeat (constructor; [discriminate |]); constructor).
  assert (H3 : Forall (fun x => x <> ABT_UNIT_NULL) [6; 7])
    by (repeat (constructor; [discriminate |]); constructor).
  assert (H4 : tail_idx m_abcde - head_idx m_abcde + Z.of_nat (length [6; 7]) <= mask m_abcde)
    by (settle).
  assert (H5 : head_idx m_abcde + mask m_abcde <= SIZE_MAX)
    by (settle).
  split; [exact (conj H1 (conj H2 (conj H3 (conj H4 H5)))) |].
  exact (push_all_steal_all zeroed m_abcde ([6; 7]) (0%nat) H1 H2 H3 H4 H5).
Defined.

(** ** Work items *)

(** X18. A work item created from a thread handle, in whatever storage, is of
    the thread type, gives the handle back as its thread and the task sentinel
    as its task, is in no pool and has empty linkage. *)
Theorem unit_from_thread_round_trip (ABT_THREAD_NULL ABT_TASK_NULL ABT_POOL_NULL : Z) (unit_def : WorkItem.unit_t) (h_thread : Z) :
  let p_unit := WorkItem.unit_create_from_thread ABT_POOL_NULL unit_def h_thread in
  WorkItem.unit_get_type p_unit = WorkItem.ABT_UNIT_TYPE_THREAD /\
  WorkItem.unit_get_thread ABT_THREAD_NULL p_unit = h_thread /\
  WorkItem.unit_get_task ABT_TASK_NULL p_unit = ABT_TASK_NULL /\
  WorkItem.unit_is_in_pool ABT_POOL_NULL p_unit = false /\
  WorkItem.p_prev p_unit = WorkItem.NULL /\
  WorkItem.p_next p_unit = WorkItem.NULL.
Proof.
  unfold WorkItem.unit_create_from_thread, WorkItem.unit_get_type,
    WorkItem.unit_get_thread, WorkItem.unit_get_task, WorkItem.unit_is_in_pool.
  cbn. rewrite Z.eqb_refl. repeat split.
Qed.

(** X19. A work item created from a task handle, in whatever storage, is of
    the task type, gives the handle back as its task and the thread sentinel
    as its thread, is in no pool and has empty linkage. *)
Theorem unit_from_task_round_trip (ABT_THREAD_NULL ABT_TASK_NULL ABT_POOL_NULL : Z) (unit_def : WorkItem.unit_t) (h_task : Z) :
  let p_unit := WorkItem.unit_create_from_task ABT_POOL_NULL unit_def h_task in
  WorkItem.unit_get_type p_unit = WorkItem.ABT_UNIT_TYPE_TASK /\
  WorkItem.unit_get_task ABT_TASK_NULL p_unit = h_task /\
  WorkItem.unit_get_thread ABT_THREAD_NULL p_unit = ABT_THREAD_NULL /\
  WorkItem.unit_is_in_pool ABT_POOL_NULL p_unit = false /\
  WorkItem.p_prev p_unit = WorkItem.NULL /\
  WorkItem.p_next p_unit = WorkItem.NULL.
Proof.
  unfold WorkItem.unit_create_from_task, WorkItem.unit_get_type,
    WorkItem.unit_get_thread, WorkItem.unit_get_task, WorkItem.unit_is_in_pool.
  cbn. rewrite Z.eqb_refl. repeat split.
Qed.

(** ** The ticket lock under interleaving *)

Module TicketProofs.

Import TicketLock Threads.

Lemma busy_le_length (l : list pc) : (busy l <= length l)%nat.
Proof. unfold busy. apply List.filter_length_le. Qed.

Lemma busy_insert (l : list pc) :
  forall (t : nat) (old new : pc),
    l !! t = Some old ->
    (busy (<[t := new]> l) + Nat.b2n (is_busy old)
     = busy l + Nat.b2n (is_busy new))%nat.
Proof.
  unfold busy. induction l as [| x l IH]; intros t old new Hl.
  - discriminate.
  - destruct t as [| t].
    + injection Hl as ->. simpl.
      destruct (is_busy old), (is_busy new); simpl; lia.
    + specialize (IH t old new Hl). simpl in *.
      destruct (is_busy x); simpl; lia.
Qed.

Lemma busy_idle_room (l : list pc) (t : nat) :
  l !! t = Some Idle -> (busy l < length l)%nat.
Proof.
  intros Hl. pose proof (busy_insert l t Idle Holding Hl) as H.
  cbn [is_busy Nat.b2n] in H.
  pose proof (busy_le_length (<[t := Holding]> l)) as Hle.
  rewrite length_insert in Hle. lia.
Qed.

Lemma uint32_range (x : Z) : 0 <= uint32 x < 2 ^ 32.
Proof. unfold uint32. apply Z.mod_pos_bound. lia. Qed.

Lemma uint32_small (x : Z) : 0 <= x < 2 ^ 32 -> uint32 x = x.
Proof. unfold uint32. apply Z.mod_small. Qed.

Lemma lookup_after_insert (l : list pc) (t t' : nat) (new st : pc) :
  <[t := new]> l !! t' = Some st ->
  (t' = t /\ st = new) \/ (t' <> t /\ l !! t' = Some st).
Proof.
  intros H. destruct (Nat.eq_dec t' t) as [-> | Hne].
  - left. split; [reflexivity |].
    assert (Hlt : (t < length l)%nat).
    { apply lookup_lt_Some in H. rewrite length_insert in H. exact H. }
    rewrite list_lookup_insert_eq in H by exact Hlt. congruence.
  - right. split; [exact Hne |]. rewrite list_lookup_insert_ne in H by congruence.
    exact H.
Qed.

Lemma init_inv (n : nat) : Z.of_nat n < 2 ^ 32 -> ticket_inv (init n).
Proof.
  intros Hn.
  assert (Hidle : forall t st, replicate n Idle !! t = Some st -> st = Idle).
  { intros t st H. apply lookup_replicate in H. tauto. }
  assert (Hbusy : busy (replicate n Idle) = 0%nat).
  { unfold busy. clear. induction n as [| n IH]; [reflexivity | exact IH]. }
  constructor; cbn [init lock threads ABTI_ticket_lock_create next_ticket now_serving].
  - rewrite length_replicate. exact Hn.
  - lia.
  - rewrite Hbusy. reflexivity.
  - intros t st o H Ho. apply Hidle in H. subst st. discriminate.
  - intros t1 t2 st1 st2 o H1 _ Ho. apply Hidle in H1. subst st1. discriminate.
Qed.

Lemma take_ticket_keeps_inv (t : nat) (w : world) :
  ticket_inv w -> threads w !! t = Some Idle ->
  ticket_inv
    (World (Lock (uint32 (next_ticket (lock w) + 1)) (now_serving (lock w)))
           (<[t := Waiting (next_ticket (lock w))]> (threads w))).
Proof.
  intros [Hlen Hs Hnext Hrange Hdist] Ht.
  pose proof (busy_insert _ t Idle (Waiting (next_ticket (lock w))) Ht) as Hb.
  pose proof (busy_idle_room _ t Ht) as Hroom.
  cbn [is_busy Nat.b2n] in Hb.
  assert (Hmine : uint32 (next_ticket (lock w) - now_serving (lock w))
                  = Z.of_nat (busy (threads w))).
  { rewrite Hnext. unfold uint32. rewrite Zminus_mod_idemp_l.
    replace (now_serving (lock w) + Z.of_nat (busy (threads w)) - now_serving (lock w))
      with (Z.of_nat (busy (threads w))) by lia.
    apply Z.mod_small. lia. }
  assert (Hb' : Z.of_nat (busy (<[t := Waiting (next_ticket (lock w))]> (threads w)))
                = Z.of_nat (busy (threads w)) + 1) by lia.
  constructor; cbn [lock threads next_ticket now_serving]; try rewrite Hb'.
  - rewrite length_insert. exact Hlen.
  - exact Hs.
  - rewrite Hnext. unfold uint32. rewrite Zplus_mod_idemp_l. f_equal. lia.
  - intros t' st o H Ho.
    destruct (lookup_after_insert _ _ _ _ _ H) as [[-> ->] | [Hne Hold]].
    + cbn [offset] in Ho. injection Ho as <-. rewrite Hmine. lia.
    + pose proof (Hrange t' st o Hold Ho). lia.
  - intros t1 t2 st1 st2 o H1 H2 Ho1 Ho2.
    destruct (lookup_after_insert _ _ _ _ _ H1) as [[-> ->] | [Hne1 Hold1]];
      destruct (lookup_after_insert _ _ _ _ _ H2) as [[-> ->] | [Hne2 Hold2]].
    + reflexivity.
    + cbn [offset] in Ho1. injection Ho1 as <-.
      pose proof (Hrange t2 st2 _ Hold2 Ho2). lia.
    + cbn [offset] in Ho2. injection Ho2 as <-.
      pose proof (Hrange t1 st1 _ Hold1 Ho1). lia.
    + exact (Hdist t1 t2 st1 st2 o Hold1 Hold2 Ho1 Ho2).
Qed.

Lemma enter_keeps_inv (t : nat) (w : world) :
  ticket_inv w -> threads w !! t = Some (Waiting (now_serving (lock w))) ->
  ticket_inv (World (lock w) (<[t := Holding]> (threads w))).
Proof.
  intros [Hlen Hs Hnext Hrange Hdist] Ht.
  pose proof (busy_insert _ t _ Holding Ht) as Hb. cbn [is_busy Nat.b2n] in Hb.
  assert (Hb' : busy (<[t := Holding]> (threads w)) = busy (threads w)) by lia.
  assert (Hoff : offset (now_serving (lock w)) (Waiting (now_serving (lock w))) = Some 0).
  { cbn [offset]. rewrite Z.sub_diag. reflexivity. }
  constructor; cbn [lock threads].
  - rewrite length_insert. exact Hlen.
  - exact Hs.
  - rewrite Hb'. exact Hnext.
  - intros t' st o H Ho. rewrite Hb'.
    destruct (lookup_after_insert _ _ _ _ _ H) as [[-> ->] | [Hne Hold]].
    + cbn [offset] in Ho. injection Ho as <-. exact (Hrange t _ 0 Ht Hoff).
    + exact (Hrange t' st o Hold Ho).
  - intros t1 t2 st1 st2 o H1 H2 Ho1 Ho2.
    destruct (lookup_after_insert _ _ _ _ _ H1) as [[-> ->] | [Hne1 Hold1]];
      destruct (lookup_after_insert _ _ _ _ _ H2) as [[-> ->] | [Hne2 Hold2]].
    + reflexivity.
    + cbn [offset] in Ho1. injection Ho1 as <-.
      exact (Hdist t t2 _ st2 0 Ht Hold2 Hoff Ho2).
    + cbn [offset] in Ho2. injection Ho2 as <-.
      exact (Hdist t1 t st1 _ 0 Hold1 Ht Ho1 Hoff).
    + exact (Hdist t1 t2 st1 st2 o Hold1 Hold2 Ho1 Ho2).
Qed.

(** While a thread holds the lock every other ticket is at least one step
    away from the one served, and a release brings it one step closer. *)
Lemma offset_after_release (t t' : nat) (k : Z) (w : world) :
  ticket_inv w -> threads w !! t = Some Holding ->
  t' <> t -> threads w !! t' = Some (Waiting k) ->
  1 <= uint32 (k - now_serving (lock w)) /\
  uint32 (k - uint32 (now_serving (lock w) + 1))
  = uint32 (k - now_serving (lock w)) - 1.
Proof.
  intros [Hlen Hs Hnext Hrange Hdist] Ht Hne Hold.
  pose proof (uint32_range (k - now_serving (lock w))) as Hr.
  assert (Hnz : uint32 (k - now_serving (lock w)) <> 0).
  { intros Hz. apply Hne.
    apply (Hdist t' t (Waiting k) Holding 0 Hold Ht); [| reflexivity].
    cbn [offset]. rewrite Hz. reflexivity. }
  split; [lia |].
  unfold uint32 in *. rewrite Zminus_mod_idemp_r. symmetry.
  apply (Z.mod_unique _ _ ((k - now_serving (lock w)) / 2 ^ 32)); [lia |].
  pose proof (Z.div_mod (k - now_serving (lock w)) (2 ^ 32) ltac:(lia)). lia.
Qed.

Lemma release_keeps_inv (t : nat) (w : world) :
  ticket_inv w -> threads w !! t = Some Holding ->
  ticket_inv (World (ABTI_ticket_lock_release (lock w)) (<[t := Idle]> (threads w))).
Proof.
  intros Hinv Ht. pose proof Hinv as [Hlen Hs Hnext Hrange Hdist].
  pose proof (busy_insert _ t _ Idle Ht) as Hb. cbn [is_busy Nat.b2n] in Hb.
  pose proof (busy_le_length (threads w)) as Hble.
  assert (Hshift : forall t' st o',
             t' <> t -> threads w !! t' = Some st ->
             offset (uint32 (now_serving (lock w) + 1)) st = Some o' ->
             offset (now_serving (lock w)) st = Some (o' + 1) /\
             0 <= o' < Z.of_nat (busy (threads w)) - 1).
  { intros t' st o' Hne Hold Ho'. destruct st as [| k |].
    - discriminate.
    - cbn [offset] in *. injection Ho' as <-.
      pose proof (Hrange t' (Waiting k) _ Hold eq_refl) as Hr.
      destruct (offset_after_release t t' k w Hinv Ht Hne Hold) as [Hpos Heq].
      rewrite Heq. split; [f_equal; lia | lia].
    - exfalso. apply Hne. exact (Hdist t' t Holding Holding 0 Hold Ht eq_refl eq_refl). }
  assert (Hb' : Z.of_nat (busy (<[t := Idle]> (threads w)))
                = Z.of_nat (busy (threads w)) - 1) by lia.
  constructor; cbn [lock threads ABTI_ticket_lock_release next_ticket now_serving];
    try rewrite Hb'.
  - rewrite length_insert. exact Hlen.
  - apply uint32_range.
  - rewrite Hnext. unfold uint32. rewrite Zplus_mod_idemp_l. f_equal. lia.
  - intros t' st o H Ho.
    destruct (lookup_after_insert _ _ _ _ _ H) as [[-> ->] | [Hne Hold]]; [discriminate |].
    destruct (Hshift t' st o Hne Hold Ho) as [_ Hr]. lia.
  - intros t1 t2 st1 st2 o H1 H2 Ho1 Ho2.
    destruct (lookup_after_insert _ _ _ _ _ H1) as [[-> ->] | [Hne1 Hold1]]; [discriminate |].
    destruct (lookup_after_insert _ _ _ _ _ H2) as [[-> ->] | [Hne2 Hold2]]; [discriminate |].
    destruct (Hshift t1 st1 o Hne1 Hold1 Ho1) as [Ho1' _].
    destruct (Hshift t2 st2 o Hne2 Hold2 Ho2) as [Ho2' _].
    exact (Hdist t1 t2 st1 st2 (o + 1) Hold1 Hold2 Ho1' Ho2').
Qed.

Lemma step_keeps_inv (t : nat) (w : world) : ticket_inv w -> ticket_inv (step t w).
Proof.
  intros Hinv. unfold step.
  destruct (threads w !! t) as [[| k |] |] eqn:Ht.
  - apply take_ticket_keeps_inv; assumption.
  - destruct (Z.eqb_spec (now_serving (lock w)) k) as [<- | _]; [| exact Hinv].
    apply enter_keeps_inv; assumption.
  - apply release_keeps_inv; assumption.
  - exact Hinv.
Qed.

Lemma run_keeps_inv (schedule : list nat) :
  forall w, ticket_inv w -> ticket_inv (run schedule w).
Proof.
  induction schedule as [| t rest IH]; intros w Hinv; [exact Hinv |].
  apply IH, step_keeps_inv, Hinv.
Qed.

(** X20. Mutual exclusion. Fewer than 2^32 threads start outside a freshly
    created ticket lock and take their atomic steps in any order: at no time
    do two threads hold the lock. *)
Theorem ticket_lock_mutual_exclusion (n : nat) (schedule : list nat) (t1 t2 : nat) :
  Z.of_nat n < 2 ^ 32 ->
  threads (run schedule (init n)) !! t1 = Some Holding ->
  threads (run schedule (init n)) !! t2 = Some Holding ->
  t1 = t2.
Proof.
  intros Hn H1 H2.
  destruct (run_keeps_inv schedule (init n) (init_inv n Hn)) as [_ _ _ _ Hdist].
  exact (Hdist t1 t2 Holding Holding 0 H1 H2 eq_refl eq_refl).
Qed.

(** Two threads: both take a ticket, the first enters and leaves, the second enters. *)
Lemma ticket_lock_mutual_exclusion_witness :
  (Z.of_nat 2%nat < 2 ^ 32 /\
   threads (run [0; 1; 0; 1; 0; 1]%nat (init 2%nat)) !! 1%nat = Some Holding /\
   threads (run [0; 1; 0; 1; 0; 1]%nat (init 2%nat)) !! 1%nat = Some Holding) /\
  (1%nat = 1%nat).
Proof.
  assert (H1 : Z.of_nat 2%nat < 2 ^ 32)
    by (settle).
  assert (H2 : threads (run [0; 1; 0; 1; 0; 1]%nat (init 2%nat)) !! 1%nat = Some Holding)
    by (settle).
  assert (H3 : threads (run [0; 1; 0; 1; 0; 1]%nat (init 2%nat)) !! 1%nat = Some Holding)
    by (settle).
  split; [exact (conj H1 (conj H2 H3)) |].
  exact (ticket_lock_mutual_exclusion (2%nat) ([0; 1; 0; 1; 0; 1]%nat) (1%nat) (1%nat) H1 H2 H3).
Defined.

(** One step of the schedule leaves two waiting threads in their order,
    unless the one in front has entered. *)
Lemma step_keeps_order (t a b : nat) (ka kb : Z) (w : world) :
  ticket_inv w ->
  threads w !! a = Some (Waiting ka) ->
  threads w !! b = Some (Waiting kb) ->
  uint32 (ka - now_serving (lock w)) < uint32 (kb - now_serving (lock w)) ->
  threads (step t w) !! a = Some Holding \/
  (threads (step t w) !! a = Some (Waiting ka) /\
   threads (step t w) !! b = Some (Waiting kb) /\
   uint32 (ka - now_serving (lock (step t w)))
   < uint32 (kb - now_serving (lock (step t w)))).
Proof.
  intros Hinv Ha Hb Hord.
  pose proof (uint32_range (ka - now_serving (lock w))) as Hra.
  assert (Hab : a <> b).
  { intros ->. rewrite Ha in Hb. injection Hb as ->. lia. }
  unfold step. destruct (threads w !! t) as [[| k |] |] eqn:Ht.
  - assert (t <> a) by congruence. assert (t <> b) by congruence.
    right. cbn [threads lock now_serving].
    rewrite !list_lookup_insert_ne by assumption. auto.
  - destruct (Z.eqb_spec (now_serving (lock w)) k) as [Hk | Hk]; [| auto].
    destruct (Nat.eq_dec t a) as [-> | Hta].
    + left. cbn [threads]. apply list_lookup_insert_eq.
      apply lookup_lt_Some in Ha. exact Ha.
    + destruct (Nat.eq_dec t b) as [-> | Htb].
      * exfalso. rewrite Hb in Ht. injection Ht as Hkk. subst kb.
        rewrite <- Hk, Z.sub_diag in Hord. change (uint32 0) with 0 in Hord. lia.
      * right. cbn [threads lock]. rewrite !list_lookup_insert_ne by assumption. auto.
  - assert (Hta : t <> a) by congruence. assert (Htb : t <> b) by congruence.
    right. cbn [threads lock ABTI_ticket_lock_release now_serving].
    rewrite !list_lookup_insert_ne by assumption.
    destruct (offset_after_release t a ka w Hinv Ht ltac:(congruence) Ha) as [_ Hea].
    destruct (offset_after_release t b kb w Hinv Ht ltac:(congruence) Hb) as [_ Heb].
    rewrite Hea, Heb. split; [exact Ha |]. split; [exact Hb | lia].
  - auto.
Qed.

Lemma fifo_from (schedule : list nat) :
  forall (w : world) (a b : nat) (ka kb : Z),
    ticket_inv w ->
    threads w !! a = Some (Waiting ka) ->
    threads w !! b = Some (Waiting kb) ->
    uint32 (ka - now_serving (lock w)) < uint32 (kb - now_serving (lock w)) ->
    threads (run schedule w) !! b = Some Holding ->
    exists before after,
      schedule = before ++ after /\
      threads (run before w) !! a = Some Holding.
Proof.
  induction schedule as [| t rest IH]; intros w a b ka kb Hinv Ha Hb Hord Hend.
  - cbn [run] in Hend. congruence.
  - cbn [run] in Hend.
    destruct (step_keeps_order t a b ka kb w Hinv Ha Hb Hord)
      as [Hin | [Ha' [Hb' Hord']]].
    + exists [t], rest. split; [reflexivity | exact Hin].
    + destruct (IH (step t w) a b ka kb (step_keeps_inv t w Hinv) Ha' Hb' Hord' Hend)
        as [before [after [-> Hin]]].
      exists (t :: before), after. split; [reflexivity | exact Hin].
Qed.

(** X21. First come, first served. If two threads wait and the ticket of [a]
    comes before the ticket of [b], then in every continuation in which [b]
    gets the lock, [a] held it at an earlier point. *)
Theorem ticket_lock_fifo (n : nat) (earlier later : list nat) (a b : nat) (ka kb : Z) :
  Z.of_nat n < 2 ^ 32 ->
  threads (run earlier (init n)) !! a = Some (Waiting ka) ->
  threads (run earlier (init n)) !! b = Some (Waiting kb) ->
  uint32 (ka - now_serving (lock (run earlier (init n))))
  < uint32 (kb - now_serving (lock (run earlier (init n)))) ->
  threads (run later (run earlier (init n))) !! b = Some Holding ->
  exists before after,
    later = before ++ after /\
    threads (run before (run earlier (init n))) !! a = Some Holding.
Proof.
  intros Hn Ha Hb Hord Hend.
  apply (fifo_from later _ a b ka kb); try assumption.
  apply run_keeps_inv, init_inv, Hn.
Qed.

(** Thread 2 holds the lock, thread 0 took its ticket before thread 1. *)
Lemma ticket_lock_fifo_witness :
  (Z.of_nat 3%nat < 2 ^ 32 /\
   threads (run [2; 0; 1]%nat (init 3%nat)) !! 0%nat = Some (Waiting 1) /\
   threads (run [2; 0; 1]%nat (init 3%nat)) !! 1%nat = Some (Waiting 2) /\
   uint32 (1 - now_serving (lock (run [2; 0; 1]%nat (init 3%nat))))
  < uint32 (2 - now_serving (lock (run [2; 0; 1]%nat (init 3%nat)))) /\
   threads (run [2; 1; 0; 2; 0; 1; 0; 1]%nat (run [2; 0; 1]%nat (init 3%nat))) !! 1%nat = Some Holding) /\
  (exists before after,
     [2; 1; 0; 2; 0; 1; 0; 1]%nat = before ++ after /\
     threads (run before (run [2; 0; 1]%nat (init 3%nat))) !! 0%nat = Some Holding).
Proof.
  assert (H1 : Z.of_nat 3%nat < 2 ^ 32)
    by (settle).
  assert (H2 : threads (run [2; 0; 1]%nat (init 3%nat)) !! 0%nat = Some (Waiting 1))
    by (settle).
  assert (H3 : threads (run [2; 0; 1]%nat (init 3%nat)) !! 1%nat = Some (Waiting 2))
    by (settle).
  assert (H4 : uint32 (1 - now_serving (lock (run [2; 0; 1]%nat (init 3%nat))))
  < uint32 (2 - now_serving (lock (run [2; 0; 1]%nat (init 3%nat)))))
    by (settle).
  assert (H5 : threads (run [2; 1; 0; 2; 0; 1; 0; 1]%nat (run [2; 0; 1]%nat (init 3%nat))) !! 1%nat = Some Holding)
    by (settle).
  split; [exact (conj H1 (conj H2 (conj H3 (conj H4 H5)))) |].
  exact (ticket_lock_fifo (3%nat) ([2; 0; 1]%nat) ([2; 1; 0; 2; 0; 1; 0; 1]%nat) (0%nat) (1%nat) 1 2 H1 H2 H3 H4 H5).
Defined.

Lemma init_cover (n : nat) : ticket_cover (init n).
Proof.
  assert (Hbusy : busy (replicate n Idle) = 0%nat).
  { unfold busy. clear. induction n as [| n IH]; [reflexivity | exact IH]. }
  split.
  - intros t k H. apply lookup_replicate in H. destruct H as [H _]. discriminate.
  - cbn [init threads]. rewrite Hbusy. intros o Ho. lia.
Qed.

Lemma step_keeps_cover (t : nat) (w : world) :
  ticket_inv w -> ticket_cover w -> ticket_cover (step t w).
Proof.
  intros Hinv [Htick Hcov]. pose proof Hinv as [Hlen Hs Hnext Hrange Hdist].
  unfold step. destruct (threads w !! t) as [[| k |] |] eqn:Ht.
  - (* a ticket is taken *)
    pose proof (busy_insert _ t Idle (Waiting (next_ticket (lock w))) Ht) as Hb.
    pose proof (busy_idle_room _ t Ht) as Hroom.
    cbn [is_busy Nat.b2n] in Hb.
    assert (Hlt : (t < length (threads w))%nat) by (apply lookup_lt_Some in Ht; exact Ht).
    split; cbn [threads lock now_serving].
    + intros t' k' H.
      destruct (lookup_after_insert _ _ _ _ _ H) as [[-> Heq] | [Hne Hold]].
      * injection Heq as ->. rewrite Hnext. apply uint32_range.
      * exact (Htick t' k' Hold).
    + intros o Ho.
      destruct (Z.eq_dec o (Z.of_nat (busy (threads w)))) as [-> | Hne].
      * exists t, (Waiting (next_ticket (lock w))).
        split; [apply list_lookup_insert_eq; exact Hlt |].
        cbn [offset]. f_equal. rewrite Hnext. unfold uint32.
        rewrite Zminus_mod_idemp_l.
        replace (now_serving (lock w) + Z.of_nat (busy (threads w)) - now_serving (lock w))
          with (Z.of_nat (busy (threads w))) by lia.
        apply Z.mod_small. lia.
      * destruct (Hcov o ltac:(lia)) as [t' [st [Hold Hoff]]].
        exists t', st. split; [| exact Hoff].
        rewrite list_lookup_insert_ne; [exact Hold |].
        intros ->. rewrite Ht in Hold. injection Hold as <-. discriminate.
  - destruct (Z.eqb_spec (now_serving (lock w)) k) as [<- | _]; [| split; assumption].
    (* the thread being served enters *)
    pose proof (busy_insert _ t _ Holding Ht) as Hb. cbn [is_busy Nat.b2n] in Hb.
    assert (Hlt : (t < length (threads w))%nat) by (apply lookup_lt_Some in Ht; exact Ht).
    split; cbn [threads lock].
    + intros t' k' H.
      destruct (lookup_after_insert _ _ _ _ _ H) as [[-> Heq] | [Hne Hold]];
        [discriminate | exact (Htick t' k' Hold)].
    + intros o Ho. destruct (Hcov o ltac:(lia)) as [t' [st [Hold Hoff]]].
      destruct (Nat.eq_dec t' t) as [-> | Hne].
      * exists t, Holding. split; [apply list_lookup_insert_eq; exact Hlt |].
        rewrite Ht in Hold. injection Hold as <-.
        cbn [offset] in *. rewrite Z.sub_diag in Hoff. exact Hoff.
      * exists t', st. split; [| exact Hoff].
        rewrite list_lookup_insert_ne by congruence. exact Hold.
  - (* release *)
    pose proof (busy_insert _ t _ Idle Ht) as Hb. cbn [is_busy Nat.b2n] in Hb.
    split; cbn [threads lock ABTI_ticket_lock_release now_serving].
    + intros t' k' H.
      destruct (lookup_after_insert _ _ _ _ _ H) as [[-> Heq] | [Hne Hold]];
        [discriminate | exact (Htick t' k' Hold)].
    + intros o Ho. destruct (Hcov (o + 1) ltac:(lia)) as [t' [st [Hold Hoff]]].
      assert (Hne : t' <> t).
      { intros ->. rewrite Ht in Hold. injection Hold as <-.
        cbn [offset] in Hoff. injection Hoff as Hoff. lia. }
      exists t', st. split; [rewrite list_lookup_insert_ne by congruence; exact Hold |].
      destruct st as [| k |]; [discriminate | | cbn [offset] in Hoff; injection Hoff as Hoff; lia].
      destruct (offset_after_release t t' k w Hinv Ht Hne Hold) as [_ Heq].
      cbn [offset] in *. injection Hoff as Hoff. f_equal. lia.
  - split; assumption.
Qed.

Lemma run_keeps_cover (schedule : list nat) :
  forall w, ticket_inv w -> ticket_cover w -> ticket_cover (run schedule w).
Proof.
  induction schedule as [| t rest IH]; intros w Hinv Hcov; [exact Hcov |].
  apply IH; [apply step_keeps_inv, Hinv | apply step_keeps_cover; assumption].
Qed.

(** X22. No lost hand-over. Whenever a thread waits for the ticket lock,
    either some thread holds the lock, or the thread whose ticket is being
    served is waiting and enters at its next test of [now_serving]. *)
Theorem ticket_lock_progress (n : nat) (schedule : list nat) (t : nat) (k : Z) :
  Z.of_nat n < 2 ^ 32 ->
  threads (run schedule (init n)) !! t = Some (Waiting k) ->
  exists t',
    threads (run schedule (init n)) !! t' = Some Holding \/
    (threads (run schedule (init n)) !! t'
       = Some (Waiting (now_serving (lock (run schedule (init n))))) /\
     threads (step t' (run schedule (init n))) !! t' = Some Holding).
Proof.
  intros Hn Hwait.
  pose proof (run_keeps_inv schedule _ (init_inv n Hn)) as Hinv.
  pose proof (run_keeps_cover schedule _ (init_inv n Hn) (init_cover n)) as [Htick Hcov].
  set (w := run schedule (init n)) in *.
  pose proof Hinv as [Hlen Hs Hnext Hrange Hdist].
  pose proof (Hrange t (Waiting k) _ Hwait eq_refl) as Hpos.
  destruct (Hcov 0 ltac:(lia)) as [t' [st [Hst Hoff]]].
  exists t'. destruct st as [| k' |]; [discriminate | | left; exact Hst].
  right.
  assert (Hk : k' = now_serving (lock w)).
  { pose proof (Htick t' k' Hst) as Hr. cbn [offset] in Hoff.
    injection Hoff as Hoff. unfold uint32 in Hoff.
    destruct (Z_lt_le_dec k' (now_serving (lock w))) as [Hlt | Hge].
    - replace (k' - now_serving (lock w))
        with (k' - now_serving (lock w) + 2 ^ 32 + (-1) * 2 ^ 32) in Hoff by lia.
      rewrite Z.mod_add, Z.mod_small in Hoff by lia. lia.
    - rewrite Z.mod_small in Hoff by lia. lia. }
  subst k'. split; [exact Hst |].
  unfold step. rewrite Hst, Z.eqb_refl. cbn [threads].
  apply list_lookup_insert_eq. apply lookup_lt_Some in Hst. exact Hst.
Qed.

(** The first thread has left the lock, the second one is still in its loop. *)
Lemma ticket_lock_progress_witness :
  (Z.of_nat 2%nat < 2 ^ 32 /\
   threads (run [0; 1; 0; 0]%nat (init 2%nat)) !! 1%nat = Some (Waiting 1)) /\
  (exists t',
     threads (run [0; 1; 0; 0]%nat (init 2%nat)) !! t' = Some Holding \/
     (threads (run [0; 1; 0; 0]%nat (init 2%nat)) !! t'
        = Some (Waiting (now_serving (lock (run [0; 1; 0; 0]%nat (init 2%nat))))) /\
      threads (step t' (run [0; 1; 0; 0]%nat (init 2%nat))) !! t' = Some Holding)).
Proof.
  assert (H1 : Z.of_nat 2%nat < 2 ^ 32)
    by (settle).
  assert (H2 : threads (run [0; 1; 0; 0]%nat (init 2%nat)) !! 1%nat = Some (Waiting 1))
    by (settle).
  split; [exact (conj H1 H2) |].
  exact (ticket_lock_progress (2%nat) ([0; 1; 0; 0]%nat) (1%nat) 1 H1 H2).
Defined.

End TicketProofs.
